(** * Workset ownership ledger

    A shallow embedding of [src/SmartContracts/WorksetOwnershipContract.py]
    (class [WorksetOwnershipContract]) and the properties of its ownership
    and borrowing state machine.

    Conventions of the embedding:
    - a Python [str] is the string of its UTF-8 bytes, so [str.encode()] is
      the identity;
    - [workset_owners] and [workset_metadata] are finite maps ([gmap]); the
      [active_borrows] dict is iterated by the code, so it is kept as an
      association list in insertion order, the order Python iterates in;
    - every call of [datetime.utcnow()] is an argument of the operation that
      makes it, in the order the calls are evaluated;
    - an operation maps a ledger to the ledger it leaves behind and an
      [outcome]: the dict it returns or the exception it raises. *)

From Stdlib Require Import Ascii String DecimalString.
From stdpp Require Import gmap strings list.

Local Open Scope Z_scope.

(** ** Python values that appear in result dicts and log entries *)

(** A naive UTC [datetime]: microseconds since 1970-01-01T00:00:00. *)
Definition datetime := Z.

(** Text written by [datetime.isoformat()].  The ledger only ever stores
    timestamps produced by [isoformat] and reads them back with
    [datetime.fromisoformat], its inverse on such text, so the text is kept
    as the instant it spells; [iso_chars] gives the characters. *)
Record isostring := ISO { instant : datetime }.

Definition isoformat (t : datetime) : isostring := ISO t.
Definition fromisoformat (s : isostring) : datetime := instant s.

(** [PStrSet] is the value of [list(set(...))]: a list of distinct str in
    the order the interpreter iterates the set in, which Python leaves
    open; it is kept as the set it lists. *)
Inductive pyval :=
| PNone
| PBool (b : bool)
| PInt (n : Z)
| PStr (s : string)
| PIso (t : isostring)
| PStrs (l : list string)   (* a list of str *)
| PStrSet (members : gset string)
| PRef (addr : nat).        (* a reference to a metadata dict, see [ledger] *)

(** A dict literal with [str] keys, in the order the keys are written. *)
Definition pydict := list (string * pyval).

Fixpoint dict_get (d : pydict) (k : string) : option pyval :=
  match d with
  | [] => None
  | (k', v) :: d' => if String.eqb k' k then Some v else dict_get d' k
  end.

(** [kwargs.get(k, default)] *)
Definition kwargs_get (kwargs : pydict) (k : string) (default : pyval) : pyval :=
  match dict_get kwargs k with Some v => v | None => default end.

(** [str(n)] for an int, as an f-string interpolates it. *)
Definition str_int (n : Z) : string := NilZero.string_of_int (Z.to_int n).

(** ** [datetime.isoformat()]: the characters *)

Definition digit (n : Z) : ascii := ascii_of_N (Z.to_N (48 + n mod 10)).

(** [n] in decimal, zero-padded to [width] digits (['%0*d']). *)
Fixpoint pad (width : nat) (n : Z) : string :=
  match width with
  | O => EmptyString
  | S w => pad w (n / 10) +:+ String (digit n) EmptyString
  end.

(** Proleptic Gregorian date of a day number (days since 1970-01-01). *)
Definition civil_from_days (days : Z) : Z * Z * Z :=
  let z := days + 719468 in
  let era := z / 146097 in
  let doe := z mod 146097 in
  let yoe := (doe - doe / 1460 + doe / 36524 - doe / 146096) / 365 in
  let doy := doe - (365 * yoe + yoe / 4 - yoe / 100) in
  let mp := (5 * doy + 2) / 153 in
  let d := doy - (153 * mp + 2) / 5 + 1 in
  let m := if mp <? 10 then mp + 3 else mp - 9 in
  let y := yoe + era * 400 + (if m <=? 2 then 1 else 0) in
  (y, m, d).

Definition usec_per_day : Z := 86400000000.

(** [YYYY-MM-DDTHH:MM:SS], followed by [.ffffff] when the microsecond is
    not zero. *)
Definition iso_chars (s : isostring) : string :=
  let t := instant s in
  let '(y, m, d) := civil_from_days (t / usec_per_day) in
  let r := t mod usec_per_day in
  let secs := r / 1000000 in
  let us := r mod 1000000 in
  pad 4 y +:+ "-" +:+ pad 2 m +:+ "-" +:+ pad 2 d +:+ "T" +:+
  pad 2 (secs / 3600) +:+ ":" +:+ pad 2 (secs / 60 mod 60) +:+ ":" +:+
  pad 2 (secs mod 60) +:+
  (if us =? 0 then "" else "." +:+ pad 6 us).

(** ** [datetime.utcfromtimestamp(timestamp / 1000000)] *)

(** The integer nearest to [num / den], for [den > 0]; of two nearest
    integers, the even one. *)
Definition round_half_even (num den : Z) : Z :=
  let q := num / den in
  let r := num mod den in
  if 2 * r <? den then q
  else if den <? 2 * r then q + 1
  else if Z.even q then q else q + 1.

(** A finite binary64 float, kept as the number [mantissa * 2 ^ exponent]. *)
Record float := Float { mantissa : Z; exponent : Z }.

(** The float as a fraction with a positive denominator. *)
Definition float_fraction (x : float) : Z * Z :=
  if 0 <=? exponent x then (mantissa x * 2 ^ exponent x, 1)
  else (mantissa x, 2 ^ (- exponent x)).

(** The float nearest to [num / den], for [den > 0], a tie going to the
    even mantissa: the quotient scaled into [2 ^ 52, 2 ^ 53) and rounded to
    an integer mantissa of 53 bits. *)
Definition nearest_float (num den : Z) : float :=
  if num =? 0 then Float 0 0
  else
    let a := Z.abs num in
    let l := Z.log2 a - Z.log2 den in
    let below := if 0 <=? l then a <? den * 2 ^ l else a * 2 ^ (- l) <? den in
    let e := (if below then l - 1 else l) - 52 in
    let m := if 0 <=? e then round_half_even a (den * 2 ^ e)
             else round_half_even (a * 2 ^ (- e)) den in
    Float (Z.sgn num * m) e.

(** [a / b] on two ints, [b > 0]: the float nearest to the quotient. *)
Definition int_truediv (a b : Z) : float := nearest_float a b.

(** C's [modf]: the fractional part, which has the sign of [x], and the
    integral part. *)
Definition modf (x : float) : float * Z :=
  let '(num, den) := float_fraction x in
  (Float (Z.rem num den) (Z.min (exponent x) 0), Z.quot num den).

(** [x * n] on floats, for an integer [n] that is a float: the float
    nearest to the product. *)
Definition float_mul_int (x : float) (n : Z) : float :=
  let '(num, den) := float_fraction x in nearest_float (num * n) den.

(** [_PyTime_RoundHalfEven], whose results are integers. *)
Definition float_round_half_even (x : float) : Z :=
  let '(num, den) := float_fraction x in round_half_even num den.

(** [datetime.utcfromtimestamp(timestamp / 1000000)] for an int
    [timestamp], as CPython (3.6 and later, with a 64-bit [time_t])
    computes it: the instant, or [None] when the call raises.  The division
    gives a float; [utcfromtimestamp] splits it with [modf], scales the
    fractional part to microseconds, rounds that half to even and carries
    into the seconds ([_PyTime_DoubleToDenominator]), then raises
    [OverflowError], [OSError] or [ValueError] unless the seconds fall in
    the years 1 to 9999.  A quotient too large for a float makes the
    division itself raise; the floats here have no largest exponent, and
    such a quotient is found out of range. *)
Definition utcfromtimestamp_float (timestamp : Z) : option datetime :=
  let d := int_truediv timestamp 1000000 in
  let '(floatpart, intpart) := modf d in
  let rounded := float_round_half_even (float_mul_int floatpart 1000000) in
  let '(sec, us) :=
    if 1000000 <=? rounded then (intpart + 1, rounded - 1000000)
    else if rounded <? 0 then (intpart - 1, rounded + 1000000)
    else (intpart, rounded) in
  if (-62135596800 <=? sec) && (sec <=? 253402300799)
  then Some (sec * 1000000 + us) else None.

(** ** [hashlib.sha256] (FIPS 180-4), on 32-bit words kept as [Z] *)

Module SHA256.

Definition w32 (x : Z) : Z := x mod 2 ^ 32.
Definition add32 (x y : Z) : Z := w32 (x + y).
Definition not32 (x : Z) : Z := Z.lxor x (2 ^ 32 - 1).
Definition rotr (n x : Z) : Z := Z.lor (Z.shiftr x n) (w32 (Z.shiftl x (32 - n))).

Definition Ch (x y z : Z) : Z := Z.lxor (Z.land x y) (Z.land (not32 x) z).
Definition Maj (x y z : Z) : Z :=
  Z.lxor (Z.lxor (Z.land x y) (Z.land x z)) (Z.land y z).
Definition bsig0 (x : Z) : Z := Z.lxor (Z.lxor (rotr 2 x) (rotr 13 x)) (rotr 22 x).
Definition bsig1 (x : Z) : Z := Z.lxor (Z.lxor (rotr 6 x) (rotr 11 x)) (rotr 25 x).
Definition ssig0 (x : Z) : Z := Z.lxor (Z.lxor (rotr 7 x) (rotr 18 x)) (Z.shiftr x 3).
Definition ssig1 (x : Z) : Z := Z.lxor (Z.lxor (rotr 17 x) (rotr 19 x)) (Z.shiftr x 10).

(** The constants are the leading 32 fractional bits of the square roots
    (initial hash value) and cube roots (round constants) of the first
    primes; they are computed here rather than tabulated. *)
Definition is_prime (n : Z) : bool :=
  forallb (fun d => negb (n mod Z.of_nat d =? 0)) (seq 2 (Z.to_nat n - 2)).

Definition first_primes : list Z :=
  Eval vm_compute in
    take 64 (filter (fun n => is_prime n = true) (map Z.of_nat (seq 2 400))).

(** Largest [r] with [r ^ 3 <= n], for [n < 2 ^ 108]. *)
Definition cube_root (n : Z) : Z :=
  fold_left
    (fun r i => let r' := r + 2 ^ Z.of_nat i in if r' ^ 3 <=? n then r' else r)
    (rev (seq 0 36)) 0.

Definition H0 : list Z :=
  Eval vm_compute in
    map (fun p => w32 (Z.sqrt (p * 2 ^ 64))) (take 8 first_primes).

Definition K : list Z :=
  Eval vm_compute in
    map (fun p => w32 (cube_root (p * 2 ^ 96))) first_primes.

(** Padding: a 1 bit, zeros up to 56 mod 64 bytes, the bit length on 8
    bytes, big-endian. *)
Definition be_bytes (width : nat) (n : Z) : list Z :=
  map (fun i => Z.shiftr n (8 * Z.of_nat i) mod 256) (rev (seq 0 width)).

Definition padded (msg : list Z) : list Z :=
  let len := Z.of_nat (length msg) in
  let zeros := Z.to_nat ((55 - len) mod 64) in
  msg ++ [128] ++ replicate zeros 0 ++ be_bytes 8 (8 * len).

Fixpoint be_words (fuel : nat) (bytes : list Z) : list Z :=
  match fuel, bytes with
  | S fuel', b0 :: b1 :: b2 :: b3 :: rest =>
      (((b0 * 256 + b1) * 256 + b2) * 256 + b3) :: be_words fuel' rest
  | _, _ => []
  end.

(** The message schedule: [w] holds W_0 .. W_(t-1), most recent first. *)
Fixpoint schedule (n : nat) (w : list Z) : list Z :=
  match n with
  | O => rev w
  | S n' =>
      let at_ i := nth i w 0 in
      schedule n'
        (add32 (add32 (ssig1 (at_ 1%nat)) (at_ 6%nat))
               (add32 (ssig0 (at_ 14%nat)) (at_ 15%nat)) :: w)
  end.

Definition round (st : list Z) (kw : Z * Z) : list Z :=
  match st with
  | [a; b; c; d; e; f; g; h] =>
      let t1 := add32 (add32 (add32 h (bsig1 e)) (add32 (Ch e f g) kw.1)) kw.2 in
      let t2 := add32 (bsig0 a) (Maj a b c) in
      [add32 t1 t2; a; b; c; add32 d t1; e; f; g]
  | _ => st
  end.

Definition compress (h : list Z) (block : list Z) : list Z :=
  let w := schedule 48 (rev block) in
  zip_with add32 h (fold_left round (zip K w) h).

Fixpoint blocks (fuel : nat) (ws : list Z) : list (list Z) :=
  match fuel, ws with
  | S fuel', _ :: _ => take 16 ws :: blocks fuel' (drop 16 ws)
  | _, _ => []
  end.

Definition digest_words (msg : list Z) : list Z :=
  let p := padded msg in
  let ws := be_words (length p) p in
  fold_left compress (blocks (length ws) ws) H0.

Definition hex_digit (n : Z) : ascii :=
  ascii_of_N (Z.to_N (if n <? 10 then 48 + n else 87 + n)).

Definition hex_word (x : Z) : string :=
  string_of_list_ascii
    (map (fun i => hex_digit (Z.shiftr x (4 * Z.of_nat i) mod 16)) (rev (seq 0 8))).

Definition bytes_of_string (s : string) : list Z :=
  map (fun a => Z.of_N (N_of_ascii a)) (list_ascii_of_string s).

(** [hashlib.sha256(data).hexdigest()] *)
Definition hexdigest (data : string) : string :=
  fold_right (fun x acc => hex_word x +:+ acc) "" (digest_words (bytes_of_string data)).

End SHA256.

(** [s[:n]] on a str. *)
Definition str_prefix (n : nat) (s : string) : string := substring 0 n s.

(** [_generate_transfer_id]: sha256 of ["{workset_id}-{timestamp}-transfer"],
    first 16 hex characters. *)
Definition _generate_transfer_id (workset_id : string) (timestamp : Z) : string :=
  let data := workset_id +:+ "-" +:+ str_int timestamp +:+ "-transfer" in
  str_prefix 16 (SHA256.hexdigest data).

(** [_generate_request_id]: the timestamp is [datetime.utcnow().isoformat()],
    read from the clock as [now]. *)
Definition _generate_request_id (workset_id user_id : string) (now : datetime) : string :=
  let timestamp := isoformat now in
  let data := workset_id +:+ "-" +:+ user_id +:+ "-" +:+ iso_chars timestamp in
  str_prefix 16 (SHA256.hexdigest data).

(** ** The ledger *)

(** A borrow request dict.  The keys [approved_at] and [expires_at] are
    absent until [approve_borrow] adds them. *)
Module Request.
Record t := mk {
  request_id : string;
  workset_id : string;
  element_ids : list string;
  borrower : string;
  owner : string;            (* the owner when the request was filed *)
  reason : string;
  requested_at : isostring;
  status : string;
  approved_at : option isostring;
  expires_at : option isostring }.
End Request.

(** An entry of a workset's active-borrow list. *)
Module Borrow.
Record t := mk {
  borrower : string;
  element_ids : list string;
  borrowed_at : isostring;
  expires_at : isostring;
  request_id : string }.
End Borrow.

#[global] Instance isostring_eq_dec : EqDecision isostring.
Proof. solve_decision. Defined.

(** Python compares dicts by value; [list.remove] relies on it. *)
#[global] Instance borrow_eq_dec : EqDecision Borrow.t.
Proof. solve_decision. Defined.

(** The value of [workset_metadata[workset_id]]. *)
Record metadata := {
  name : string;
  document_guid : pyval;
  registered_at : isostring;
  is_editable : pyval;
  last_modified : isostring }.

(** The instance state of [WorksetOwnershipContract].  A metadata dict is
    shared between [workset_metadata] and the log entry written when it was
    registered, and [transfer_ownership] updates it in place: the dicts live
    in [metadata_objects], and both places hold the index of the dict. *)
Record ledger := {
  workset_owners : gmap string string;
  metadata_objects : list metadata;
  workset_metadata : gmap string nat;
  borrow_requests : list Request.t;
  borrow_history : list Request.t;
  ownership_history : list pydict;
  active_borrows : list (string * list Borrow.t);
  borrow_timeout_hours : Z;
  max_concurrent_borrows : Z }.

(** [__init__] *)
Definition init : ledger := {|
  workset_owners := ∅;
  metadata_objects := [];
  workset_metadata := ∅;
  borrow_requests := [];
  borrow_history := [];
  ownership_history := [];
  active_borrows := [];
  borrow_timeout_hours := 24;
  max_concurrent_borrows := 10 |}.

Definition set_workset_owners (m : gmap string string) (s : ledger) : ledger :=
  {| workset_owners := m;
     metadata_objects := metadata_objects s;
     workset_metadata := workset_metadata s;
     borrow_requests := borrow_requests s;
     borrow_history := borrow_history s;
     ownership_history := ownership_history s;
     active_borrows := active_borrows s;
     borrow_timeout_hours := borrow_timeout_hours s;
     max_concurrent_borrows := max_concurrent_borrows s |}.

Definition set_metadata (objs : list metadata) (m : gmap string nat) (s : ledger) : ledger :=
  {| workset_owners := workset_owners s;
     metadata_objects := objs;
     workset_metadata := m;
     borrow_requests := borrow_requests s;
     borrow_history := borrow_history s;
     ownership_history := ownership_history s;
     active_borrows := active_borrows s;
     borrow_timeout_hours := borrow_timeout_hours s;
     max_concurrent_borrows := max_concurrent_borrows s |}.

Definition set_borrow_requests (l : list Request.t) (s : ledger) : ledger :=
  {| workset_owners := workset_owners s;
     metadata_objects := metadata_objects s;
     workset_metadata := workset_metadata s;
     borrow_requests := l;
     borrow_history := borrow_history s;
     ownership_history := ownership_history s;
     active_borrows := active_borrows s;
     borrow_timeout_hours := borrow_timeout_hours s;
     max_concurrent_borrows := max_concurrent_borrows s |}.

Definition set_borrow_history (l : list Request.t) (s : ledger) : ledger :=
  {| workset_owners := workset_owners s;
     metadata_objects := metadata_objects s;
     workset_metadata := workset_metadata s;
     borrow_requests := borrow_requests s;
     borrow_history := l;
     ownership_history := ownership_history s;
     active_borrows := active_borrows s;
     borrow_timeout_hours := borrow_timeout_hours s;
     max_concurrent_borrows := max_concurrent_borrows s |}.

Definition set_ownership_history (l : list pydict) (s : ledger) : ledger :=
  {| workset_owners := workset_owners s;
     metadata_objects := metadata_objects s;
     workset_metadata := workset_metadata s;
     borrow_requests := borrow_requests s;
     borrow_history := borrow_history s;
     ownership_history := l;
     active_borrows := active_borrows s;
     borrow_timeout_hours := borrow_timeout_hours s;
     max_concurrent_borrows := max_concurrent_borrows s |}.

Definition set_active_borrows (d : list (string * list Borrow.t)) (s : ledger) : ledger :=
  {| workset_owners := workset_owners s;
     metadata_objects := metadata_objects s;
     workset_metadata := workset_metadata s;
     borrow_requests := borrow_requests s;
     borrow_history := borrow_history s;
     ownership_history := ownership_history s;
     active_borrows := d;
     borrow_timeout_hours := borrow_timeout_hours s;
     max_concurrent_borrows := max_concurrent_borrows s |}.

(** *** The [active_borrows] dict, in insertion order *)

Section ActiveDict.
Context {V : Type}.
Implicit Type d : list (string * V).

(** [d.get(k)] *)
Fixpoint od_get d (k : string) : option V :=
  match d with
  | [] => None
  | (k', v) :: d' => if decide (k' = k) then Some v else od_get d' k
  end.

(** [d[k] = v]: an existing key keeps its place, a new one goes last. *)
Fixpoint od_set d (k : string) (v : V) : list (string * V) :=
  match d with
  | [] => [(k, v)]
  | (k', v') :: d' =>
      if decide (k' = k) then (k, v) :: d' else (k', v') :: od_set d' k v
  end.

(** [del d[k]] *)
Fixpoint od_del d (k : string) : list (string * V) :=
  match d with
  | [] => []
  | (k', v') :: d' =>
      if decide (k' = k) then od_del d' k else (k', v') :: od_del d' k
  end.

(** [d.values()] *)
Definition od_values d : list V := map snd d.
End ActiveDict.

(** *** Outcomes *)

Inductive exn :=
| KeyError (key : string)
| TimestampError.   (* OverflowError, OSError or ValueError of [utcfromtimestamp] *)

Inductive outcome (A : Type) :=
| Returns (a : A)
| Raises (e : exn).
Arguments Returns {A} a.
Arguments Raises {A} e.

(** [{"success": False, "error": msg}] *)
Definition failure (msg : string) : pydict :=
  [("success", PBool false); ("error", PStr msg)].

(** The messages of the failure results. *)
Definition missing_parameters : string := "Missing required parameters".
Definition workset_not_found : string := "Workset not found".
Definition not_current_owner (from_user : string) : string :=
  "User " +:+ from_user +:+ " is not the current owner".
Definition transfer_with_active_borrows : string :=
  "Cannot transfer ownership with active borrows".
Definition owner_cannot_borrow : string := "Owner cannot borrow from own workset".
Definition borrow_limit_reached (limit : Z) : string :=
  "User has reached maximum concurrent borrows (" +:+ str_int limit +:+ ")".
Definition request_not_found : string := "Request not found".
Definition only_owner_can_approve : string := "Only workset owner can approve".
Definition request_already (status : string) : string := "Request already " +:+ status.
Definition no_active_borrows_for_workset : string := "No active borrows for workset".
Definition user_has_no_active_borrows : string := "User has no active borrows".

(** *** The operations *)

(** Truth value of a [str] argument that may be [None]. *)
Definition truthy (s : option string) : bool :=
  match s with
  | Some s => negb (String.eqb s "")
  | None => false
  end.

(** [register_workset].  [now1], [now2], [now3] are the three readings of
    the clock, for [registered_at], [last_modified] and the log entry. *)
Definition register_workset (s : ledger) (workset_id workset_name owner : option string)
    (document_guid : pyval) (kwargs : pydict) (now1 now2 now3 : datetime)
    : ledger * outcome pydict :=
  if negb (truthy workset_id && truthy workset_name && truthy owner)
  then (s, Returns (failure missing_parameters))
  else
    match workset_id, workset_name, owner with
    | Some wid, Some wname, Some own =>
        let is_new := bool_decide (workset_owners s !! wid = None) in
        let s1 := set_workset_owners (<[wid := own]> (workset_owners s)) s in
        let addr := length (metadata_objects s1) in
        let meta := {| name := wname;
                       document_guid := document_guid;
                       registered_at := isoformat now1;
                       is_editable := kwargs_get kwargs "is_editable" (PBool true);
                       last_modified := isoformat now2 |} in
        let s2 := set_metadata (metadata_objects s1 ++ [meta])
                               (<[wid := addr]> (workset_metadata s1)) s1 in
        let action := if is_new then "registered" else "updated" in
        let entry := [("workset_id", PStr wid);
                      ("action", PStr action);
                      ("owner", PStr own);
                      ("timestamp", PIso (isoformat now3));
                      ("metadata", PRef addr)] in
        let s3 := set_ownership_history (ownership_history s2 ++ [entry]) s2 in
        (s3, Returns [("success", PBool true);
                      ("workset_id", PStr wid);
                      ("action", PStr action)])
    | _, _, _ =>
        (* not reached: [None] is falsy *)
        (s, Returns (failure missing_parameters))
    end.

(** [workset_id in self.active_borrows and self.active_borrows[workset_id]] *)
Definition has_active_borrows (s : ledger) (workset_id : string) : bool :=
  match od_get (active_borrows s) workset_id with
  | Some (_ :: _) => true
  | _ => false
  end.

Section Contract.

(** [datetime.utcfromtimestamp(timestamp / 1000000)] on an int of
    microseconds: the instant, or [None] when the call raises.  CPython's
    conversion is [utcfromtimestamp_float]; the operations take the
    conversion as a parameter, and the invariants of the ledger hold
    whatever the interpreter's conversion accepts. *)
Variable utcfromtimestamp_micros : Z -> option datetime.

(** [transfer_ownership].  [now] is the clock reading for [last_modified]. *)
Definition transfer_ownership (s : ledger) (workset_id from_user to_user : string)
    (timestamp : Z) (kwargs : pydict) (now : datetime) : ledger * outcome pydict :=
  match workset_owners s !! workset_id with
  | None => (s, Returns (failure workset_not_found))
  | Some current =>
      if negb (String.eqb current from_user)
      then (s, Returns (failure (not_current_owner from_user)))
      else if has_active_borrows s workset_id
      then (s, Returns (failure transfer_with_active_borrows))
      else
        let s1 := set_workset_owners (<[workset_id := to_user]> (workset_owners s)) s in
        match workset_metadata s1 !! workset_id with
        | None => (s1, Raises (KeyError workset_id))
        | Some addr =>
            let touch m := {| name := name m;
                              document_guid := document_guid m;
                              registered_at := registered_at m;
                              is_editable := is_editable m;
                              last_modified := isoformat now |} in
            let s2 := set_metadata (alter touch addr (metadata_objects s1))
                                   (workset_metadata s1) s1 in
            match utcfromtimestamp_micros timestamp with
            | None => (s2, Raises TimestampError)
            | Some t =>
                let entry := [("workset_id", PStr workset_id);
                              ("action", PStr "ownership_transfer");
                              ("from_user", PStr from_user);
                              ("to_user", PStr to_user);
                              ("timestamp", PIso (isoformat t));
                              ("document_guid", kwargs_get kwargs "document_guid" PNone)] in
                let s3 := set_ownership_history (ownership_history s2 ++ [entry]) s2 in
                (s3, Returns [("success", PBool true);
                              ("workset_id", PStr workset_id);
                              ("new_owner", PStr to_user);
                              ("transfer_id",
                               PStr (_generate_transfer_id workset_id timestamp))])
            end
        end
  end.

(** The number of active borrows of [user_id], over all worksets. *)
Definition user_active_borrows (s : ledger) (user_id : string) : Z :=
  Z.of_nat (length (filter (fun b => Borrow.borrower b = user_id)
                           (concat (od_values (active_borrows s))))).

(** [request_borrow].  [now1] is the clock reading inside
    [_generate_request_id], [now2] the one for [requested_at]. *)
Definition request_borrow (s : ledger) (workset_id : string) (element_ids : list string)
    (user_id reason : string) (now1 now2 : datetime) : ledger * outcome pydict :=
  match workset_owners s !! workset_id with
  | None => (s, Returns (failure workset_not_found))
  | Some current =>
      if String.eqb current user_id
      then (s, Returns (failure owner_cannot_borrow))
      else if user_active_borrows s user_id >=? max_concurrent_borrows s
      then (s, Returns (failure (borrow_limit_reached (max_concurrent_borrows s))))
      else
        let request_id := _generate_request_id workset_id user_id now1 in
        let borrow_request :=
          {| Request.request_id := request_id;
             Request.workset_id := workset_id;
             Request.element_ids := element_ids;
             Request.borrower := user_id;
             Request.owner := current;
             Request.reason := reason;
             Request.requested_at := isoformat now2;
             Request.status := "pending";
             Request.approved_at := None;
             Request.expires_at := None |} in
        (set_borrow_requests (borrow_requests s ++ [borrow_request]) s,
         Returns [("success", PBool true);
                  ("request_id", PStr request_id);
                  ("status", PStr "pending");
                  ("owner", PStr current)])
  end.

(** [next((r for r in self.borrow_requests if r["request_id"] == request_id), None)]:
    the first request with that id, and its position in the list. *)
Definition find_request (s : ledger) (request_id : string) : option (nat * Request.t) :=
  list_find (fun r => Request.request_id r = request_id) (borrow_requests s).

(** [timedelta(hours=h)] in microseconds. *)
Definition hours (h : Z) : Z := h * 3600000000.

(** [request["status"] = "approved"], then [request["approved_at"]] and
    [request["expires_at"]] are set, on the dict in the list. *)
Definition approve_request (request : Request.t) (approved_at expires_at : isostring)
    : Request.t :=
  {| Request.request_id := Request.request_id request;
     Request.workset_id := Request.workset_id request;
     Request.element_ids := Request.element_ids request;
     Request.borrower := Request.borrower request;
     Request.owner := Request.owner request;
     Request.reason := Request.reason request;
     Request.requested_at := Request.requested_at request;
     Request.status := "approved";
     Request.approved_at := Some approved_at;
     Request.expires_at := Some expires_at |}.

(** [approve_borrow].  [now1] is the clock reading for [approved_at],
    [now2] the one the expiry is counted from. *)
Definition approve_borrow (s : ledger) (request_id owner_id : string)
    (now1 now2 : datetime) : ledger * outcome pydict :=
  match find_request s request_id with
  | None => (s, Returns (failure request_not_found))
  | Some (i, request) =>
      if negb (String.eqb (Request.owner request) owner_id)
      then (s, Returns (failure only_owner_can_approve))
      else if negb (String.eqb (Request.status request) "pending")
      then (s, Returns (failure (request_already (Request.status request))))
      else
        let approved_at := isoformat now1 in
        let expires_at := isoformat (now2 + hours (borrow_timeout_hours s)) in
        let request' := approve_request request approved_at expires_at in
        let s1 := set_borrow_requests (<[i := request']> (borrow_requests s)) s in
        let wid := Request.workset_id request' in
        let s2 := match od_get (active_borrows s1) wid with
                  | None => set_active_borrows (od_set (active_borrows s1) wid []) s1
                  | Some _ => s1
                  end in
        let borrows := default [] (od_get (active_borrows s2) wid) in
        let borrow := {| Borrow.borrower := Request.borrower request';
                         Borrow.element_ids := Request.element_ids request';
                         Borrow.borrowed_at := approved_at;
                         Borrow.expires_at := expires_at;
                         Borrow.request_id := request_id |} in
        let s3 := set_active_borrows (od_set (active_borrows s2) wid (borrows ++ [borrow])) s2 in
        let s4 := set_borrow_history (borrow_history s3 ++ [request']) s3 in
        (s4, Returns [("success", PBool true);
                      ("request_id", PStr request_id);
                      ("borrower", PStr (Request.borrower request'));
                      ("expires_at", PIso expires_at)])
  end.

(** [l.remove(x)]: drops the first element equal to [x].  (Python raises
    [ValueError] when there is none; the callers below only remove an
    element they have just read from the list.) *)
Fixpoint list_remove (x : Borrow.t) (l : list Borrow.t) : list Borrow.t :=
  match l with
  | [] => []
  | y :: l' => if decide (y = x) then l' else y :: list_remove x l'
  end.

(** [borrow["element_ids"] = remaining] on a dict that sits in the list: the
    dict is found as the first element equal to it. *)
Fixpoint list_assign (x x' : Borrow.t) (l : list Borrow.t) : list Borrow.t :=
  match l with
  | [] => []
  | y :: l' => if decide (y = x) then x' :: l' else y :: list_assign x x' l'
  end.

(** One turn of the loop of [release_borrowed]: [acc] is the workset's
    active list and the elements released so far. *)
Definition release_step (element_ids : list string)
    (acc : list Borrow.t * list string) (borrow : Borrow.t)
    : list Borrow.t * list string :=
  let '(borrows, released) := acc in
  let remaining := filter (fun e => e ∉ element_ids) (Borrow.element_ids borrow) in
  if (length remaining <? length (Borrow.element_ids borrow))%nat
  then
    let released' :=
      released ++ filter (fun e => e ∈ element_ids) (Borrow.element_ids borrow) in
    match remaining with
    | _ :: _ =>
        let borrow' := {| Borrow.borrower := Borrow.borrower borrow;
                          Borrow.element_ids := remaining;
                          Borrow.borrowed_at := Borrow.borrowed_at borrow;
                          Borrow.expires_at := Borrow.expires_at borrow;
                          Borrow.request_id := Borrow.request_id borrow |} in
        (list_assign borrow borrow' borrows, released')
    | [] => (list_remove borrow borrows, released')
    end
  else (borrows, released).

(** [release_borrowed].  [now] is the clock reading for [released_at]. *)
Definition release_borrowed (s : ledger) (workset_id : string) (element_ids : list string)
    (user_id : string) (now : datetime) : ledger * outcome pydict :=
  match od_get (active_borrows s) workset_id with
  | None => (s, Returns (failure no_active_borrows_for_workset))
  | Some borrows =>
      let user_borrows := filter (fun b => Borrow.borrower b = user_id) borrows in
      match user_borrows with
      | [] => (s, Returns (failure user_has_no_active_borrows))
      | _ :: _ =>
          let '(borrows', released) :=
            fold_left (release_step element_ids) user_borrows (borrows, []) in
          let active1 := od_set (active_borrows s) workset_id borrows' in
          let active2 := match borrows' with
                         | [] => od_del active1 workset_id
                         | _ :: _ => active1
                         end in
          (set_active_borrows active2 s,
           Returns [("success", PBool true);
                    ("released_elements", PStrs released);
                    ("released_at", PIso (isoformat now))])
      end
  end.

(** The dict [check_expired_borrows] reports for an expired borrow. *)
Definition expired_entry (workset_id : string) (borrow : Borrow.t) : pydict :=
  let expires_at := fromisoformat (Borrow.expires_at borrow) in
  [("workset_id", PStr workset_id);
   ("borrower", PStr (Borrow.borrower borrow));
   ("element_ids", PStrs (Borrow.element_ids borrow));
   ("expired_at", PIso (isoformat expires_at))].

(** One turn of the inner loop, over the copy [borrows[:]]. *)
Definition expire_step (current_time : datetime) (workset_id : string)
    (acc : list Borrow.t * list pydict) (borrow : Borrow.t)
    : list Borrow.t * list pydict :=
  let '(borrows, expired) := acc in
  let expires_at := fromisoformat (Borrow.expires_at borrow) in
  if expires_at <? current_time
  then (list_remove borrow borrows, expired ++ [expired_entry workset_id borrow])
  else (borrows, expired).

(** One turn of the outer loop, over the copy [list(self.active_borrows.items())]. *)
Definition expire_workset (current_time : datetime)
    (acc : list (string * list Borrow.t) * list pydict)
    (item : string * list Borrow.t) : list (string * list Borrow.t) * list pydict :=
  let '(active, expired) := acc in
  let '(workset_id, borrows) := item in
  let '(borrows', expired') :=
    fold_left (expire_step current_time workset_id) borrows (borrows, expired) in
  let active1 := od_set active workset_id borrows' in
  match borrows' with
  | [] => (od_del active1 workset_id, expired')
  | _ :: _ => (active1, expired')
  end.

(** [check_expired_borrows].  [current_time] is the clock reading. *)
Definition check_expired_borrows (s : ledger) (current_time : datetime)
    : ledger * outcome (list pydict) :=
  let '(active, expired) :=
    fold_left (expire_workset current_time) (active_borrows s) (active_borrows s, []) in
  (set_active_borrows active s, Returns expired).

(** [get_workset_status].  The order of [list(set(...))] is not fixed by
    Python: the [borrowers] field is the set of borrowers. *)
Definition get_workset_status (s : ledger) (workset_id : string)
    : ledger * outcome pydict :=
  match workset_owners s !! workset_id with
  | None => (s, Returns (failure workset_not_found))
  | Some current =>
      let active := default [] (od_get (active_borrows s) workset_id) in
      match workset_metadata s !! workset_id with
      | None => (s, Raises (KeyError workset_id))
      | Some addr =>
          (s, Returns [("success", PBool true);
                       ("workset_id", PStr workset_id);
                       ("owner", PStr current);
                       ("metadata", PRef addr);
                       ("active_borrows", PInt (Z.of_nat (length active)));
                       ("borrowed_elements",
                        PInt (Z.of_nat (sum_list (map (fun b => length (Borrow.element_ids b)) active))));
                       ("borrowers", PStrSet (list_to_set (map Borrow.borrower active)))])
      end
  end.

(** *** Calls and reachable states *)

Inductive call :=
| Register (workset_id workset_name owner : option string) (document_guid : pyval)
    (kwargs : pydict) (now1 now2 now3 : datetime)
| Transfer (workset_id from_user to_user : string) (timestamp : Z)
    (kwargs : pydict) (now : datetime)
| RequestBorrow (workset_id : string) (element_ids : list string)
    (user_id reason : string) (now1 now2 : datetime)
| ApproveBorrow (request_id owner_id : string) (now1 now2 : datetime)
| ReleaseBorrowed (workset_id : string) (element_ids : list string)
    (user_id : string) (now : datetime)
| CheckExpired (current_time : datetime)
| GetStatus (workset_id : string).

(** The ledger a call leaves behind, whether it returns or raises. *)
Definition run (s : ledger) (c : call) : ledger :=
  match c with
  | Register workset_id workset_name owner document_guid kwargs now1 now2 now3 =>
      (register_workset s workset_id workset_name owner document_guid kwargs
         now1 now2 now3).1
  | Transfer workset_id from_user to_user timestamp kwargs now =>
      (transfer_ownership s workset_id from_user to_user timestamp kwargs now).1
  | RequestBorrow workset_id element_ids user_id reason now1 now2 =>
      (request_borrow s workset_id element_ids user_id reason now1 now2).1
  | ApproveBorrow request_id owner_id now1 now2 =>
      (approve_borrow s request_id owner_id now1 now2).1
  | ReleaseBorrowed workset_id element_ids user_id now =>
      (release_borrowed s workset_id element_ids user_id now).1
  | CheckExpired current_time => (check_expired_borrows s current_time).1
  | GetStatus workset_id => (get_workset_status s workset_id).1
  end.

(** The states of a ledger created by [__init__] and driven by any calls,
    with any arguments and any clock. *)
Inductive reachable : ledger -> Prop :=
| reachable_init : reachable init
| reachable_run s c : reachable s -> reachable (run s c).

End Contract.

(** ** Vocabulary of the properties *)

(** [result["success"] is True] for a call that returned. *)
Definition returns_success (o : outcome pydict) : bool :=
  match o with
  | Returns d => match dict_get d "success" with Some (PBool true) => true | _ => false end
  | Raises _ => false
  end.



(** All active borrows, over all worksets. *)
Definition all_borrows (s : ledger) : list Borrow.t :=
  concat (od_values (active_borrows s)).

(** No workset of the active-borrow table has an empty list. *)
Definition no_empty_list (d : list (string * list Borrow.t)) : Prop :=
  Forall (fun item => item.2 <> []) d.

(** [workset_metadata] has an entry for every workset that has an owner. *)
Definition metadata_consistent (s : ledger) : Prop :=
  forall workset_id, is_Some (workset_owners s !! workset_id) ->
                     is_Some (workset_metadata s !! workset_id).

(** The metadata dict and the log entry [register_workset] writes. *)
Definition registered_metadata (workset_name : string) (document_guid : pyval)
    (kwargs : pydict) (now1 now2 : datetime) : metadata :=
  {| name := workset_name;
     document_guid := document_guid;
     registered_at := isoformat now1;
     is_editable := kwargs_get kwargs "is_editable" (PBool true);
     last_modified := isoformat now2 |}.

Definition registered_entry (workset_id action owner : string) (now3 : datetime)
    (addr : nat) : pydict :=
  [("workset_id", PStr workset_id); ("action", PStr action); ("owner", PStr owner);
   ("timestamp", PIso (isoformat now3)); ("metadata", PRef addr)].

(** The log entry [transfer_ownership] writes; [t] is the converted
    timestamp. *)
Definition transfer_entry (workset_id from_user to_user : string) (t : datetime)
    (kwargs : pydict) : pydict :=
  [("workset_id", PStr workset_id); ("action", PStr "ownership_transfer");
   ("from_user", PStr from_user); ("to_user", PStr to_user);
   ("timestamp", PIso (isoformat t));
   ("document_guid", kwargs_get kwargs "document_guid" PNone)].

(** [current_time > expires_at] in [check_expired_borrows]. *)
Definition expired (current_time : datetime) (b : Borrow.t) : Prop :=
  fromisoformat (Borrow.expires_at b) < current_time.

#[global] Instance expired_dec current_time b : Decision (expired current_time b).
Proof. unfold expired. apply _. Defined.

(** What an expiry sweep should report: for every workset in table order,
    its expired borrows in list order. *)
Definition expired_entries (current_time : datetime)
    (d : list (string * list Borrow.t)) : list pydict :=
  d ≫= (fun item => expired_entry item.1 <$> filter (expired current_time) item.2).

(** What an expiry sweep should leave: every list without its expired
    borrows, and no entry for a list that has become empty. *)
Definition swept (current_time : datetime)
    (d : list (string * list Borrow.t)) : list (string * list Borrow.t) :=
  omap (fun item =>
          match filter (fun b => ~ expired current_time b) item.2 with
          | [] => None
          | b :: l => Some (item.1, b :: l)
          end) d.

(** ** Concrete ledgers *)

(** The ledgers below are driven with CPython's conversion. *)

Definition t0 : datetime := 1700000000000000.

(** [register_workset("ws1", "Structural", "alice", "d1")] on a new ledger. *)
Definition ledger_ws1 : ledger :=
  run utcfromtimestamp_float init
    (Register (Some "ws1") (Some "Structural") (Some "alice") (PStr "d1") []
       t0 (t0 + 1) (t0 + 2)).

(** Then [request_borrow("ws1", ["e1", "e2"], "bob")]. *)
Definition bob_request_id : string := _generate_request_id "ws1" "bob" (t0 + 10).

Definition ledger_requested : ledger :=
  run utcfromtimestamp_float ledger_ws1
    (RequestBorrow "ws1" ["e1"; "e2"] "bob" "" (t0 + 10) (t0 + 11)).

(** Then [approve_borrow(bob_request_id, "alice")]. *)
Definition ledger_borrowed : ledger :=
  run utcfromtimestamp_float ledger_requested
    (ApproveBorrow bob_request_id "alice" (t0 + 20) (t0 + 21)).

Definition bob_request : Request.t :=
  {| Request.request_id := bob_request_id;
     Request.workset_id := "ws1";
     Request.element_ids := ["e1"; "e2"];
     Request.borrower := "bob";
     Request.owner := "alice";
     Request.reason := "";
     Request.requested_at := isoformat (t0 + 11);
     Request.status := "pending";
     Request.approved_at := None;
     Request.expires_at := None |}.

Definition bob_borrow : Borrow.t :=
  {| Borrow.borrower := "bob";
     Borrow.element_ids := ["e1"; "e2"];
     Borrow.borrowed_at := isoformat (t0 + 20);
     Borrow.expires_at := isoformat (t0 + 21 + hours 24);
     Borrow.request_id := bob_request_id |}.



(** Eleven requests by bob on ["ws1"], filed at distinct instants and then
    approved one after the other by the owner. *)
Definition request_time (k : nat) : datetime := t0 + 100 + Z.of_nat k.

Definition file_requests (n : nat) (s : ledger) : ledger * list (outcome pydict) :=
  fold_left
    (fun acc k =>
       let call := request_borrow acc.1 "ws1" ["e1"] "bob" "" (request_time k)
                     (request_time k) in
       (call.1, acc.2 ++ [call.2]))
    (seq 0 n) (s, []).

Definition approve_requests (n : nat) (s : ledger) : ledger * list (outcome pydict) :=
  fold_left
    (fun acc k =>
       let call := approve_borrow acc.1
                     (_generate_request_id "ws1" "bob" (request_time k)) "alice"
                     (t0 + 200) (t0 + 200) in
       (call.1, acc.2 ++ [call.2]))
    (seq 0 n) (s, []).

(** ** Vocabulary of the further properties *)

(** The request dict [request_borrow] stores. *)
Definition pending_request (workset_id : string) (element_ids : list string)
    (user_id owner reason : string) (now1 now2 : datetime) : Request.t :=
  {| Request.request_id := _generate_request_id workset_id user_id now1;
     Request.workset_id := workset_id;
     Request.element_ids := element_ids;
     Request.borrower := user_id;
     Request.owner := owner;
     Request.reason := reason;
     Request.requested_at := isoformat now2;
     Request.status := "pending";
     Request.approved_at := None;
     Request.expires_at := None |}.

(** The ledger after a list of calls, made one after the other. *)
Definition runs (conv : Z -> option datetime) (s : ledger) (calls : list call) : ledger :=
  fold_left (run conv) calls s.

(** The active borrow [approve_borrow] creates from a request. *)
Definition approved_borrow (request : Request.t) (request_id : string)
    (approved_at expires_at : isostring) : Borrow.t :=
  {| Borrow.borrower := Request.borrower request;
     Borrow.element_ids := Request.element_ids request;
     Borrow.borrowed_at := approved_at;
     Borrow.expires_at := expires_at;
     Borrow.request_id := request_id |}.

(** What a request is filed with: the keys no operation assigns again. *)
Definition filed (r : Request.t)
    : string * string * list string * string * string * string * isostring :=
  (Request.request_id r, Request.workset_id r, Request.element_ids r,
   Request.borrower r, Request.owner r, Request.reason r, Request.requested_at r).

(** A request as the operations leave it: filed by someone other than the
    owner, and either pending with no approval stamps or approved with both. *)
Definition request_ok (r : Request.t) : Prop :=
  Request.borrower r <> Request.owner r /\
  ((Request.status r = "pending" /\
    Request.approved_at r = None /\ Request.expires_at r = None) \/
   (Request.status r = "approved" /\
    is_Some (Request.approved_at r) /\ is_Some (Request.expires_at r))).

(** An active borrow as [approve_borrow] derives it from a request and
    [release_borrowed] may have shrunk it since. *)
Definition borrow_of_request (b : Borrow.t) (r : Request.t) : Prop :=
  Request.status r = "approved" /\
  Borrow.request_id b = Request.request_id r /\
  Borrow.borrower b = Request.borrower r /\
  Request.approved_at r = Some (Borrow.borrowed_at b) /\
  Request.expires_at r = Some (Borrow.expires_at b) /\
  Borrow.element_ids b ⊆ Request.element_ids r.

(** [b'] is [b] with some of its elements released. *)
Definition shrinks (b' b : Borrow.t) : Prop :=
  Borrow.request_id b' = Borrow.request_id b /\
  Borrow.borrower b' = Borrow.borrower b /\
  Borrow.borrowed_at b' = Borrow.borrowed_at b /\
  Borrow.expires_at b' = Borrow.expires_at b /\
  Borrow.element_ids b' ⊆ Borrow.element_ids b.

(** The request ids of the active borrows, over all worksets. *)
Definition active_ids (s : ledger) : list string :=
  Borrow.request_id <$> all_borrows s.

(** Every active borrow is backed by the request its id resolves to. *)
Definition borrows_backed (s : ledger) : Prop :=
  forall workset_id borrows b,
    (workset_id, borrows) ∈ active_borrows s -> b ∈ borrows ->
    exists i r, find_request s (Borrow.request_id b) = Some (i, r) /\
                Request.workset_id r = workset_id /\
                borrow_of_request b r.

Definition borrows_inv (s : ledger) : Prop :=
  borrows_backed s /\ NoDup (active_ids s).

(** Two requests by bob on ["ws1"] filed at the same clock reading: they get
    the same request id. *)
Definition ledger_collision : ledger :=
  run utcfromtimestamp_float ledger_requested
    (RequestBorrow "ws1" ["e3"] "bob" "again" (t0 + 10) (t0 + 12)).

(** The elements [release_borrowed] hands back: for each borrow of the user,
    in list order, the elements it holds that were asked for. *)
Definition released_elements (element_ids : list string) (user_borrows : list Borrow.t)
    : list string :=
  user_borrows ≫= (fun b => filter (fun e => e ∈ element_ids) (Borrow.element_ids b)).

(** The workset's list of active borrows, empty when it has no entry. *)
Definition borrows_on (s : ledger) (workset_id : string) : list Borrow.t :=
  default [] (od_get (active_borrows s) workset_id).

(** The metadata dict of every workset exists, and the log holds an entry
    of that workset that refers to the same dict. *)
Definition metadata_logged (s : ledger) : Prop :=
  forall workset_id addr,
    workset_metadata s !! workset_id = Some addr ->
    is_Some (metadata_objects s !! addr) /\
    exists entry, entry ∈ ownership_history s /\
                  dict_get entry "workset_id" = Some (PStr workset_id) /\
                  dict_get entry "metadata" = Some (PRef addr).

(** [metadata["last_modified"] = t] *)
Definition touched (m : metadata) (t : isostring) : metadata :=
  {| name := name m;
     document_guid := document_guid m;
     registered_at := registered_at m;
     is_editable := is_editable m;
     last_modified := t |}.

(** A lower-case hexadecimal digit. *)
Definition is_hex (c : ascii) : bool :=
  existsb (Ascii.eqb c) (list_ascii_of_string "0123456789abcdef").

(** A string of exactly [n] lower-case hexadecimal digits. *)
Definition hex_token (n : nat) (s : string) : Prop :=
  String.length s = n /\ forallb is_hex (list_ascii_of_string s) = true.

(** The second of the two colliding requests of [ledger_collision]. *)
Definition bob_second_request : Request.t :=
  pending_request "ws1" ["e3"] "bob" "alice" "again" (t0 + 10) (t0 + 12).

(** A borrow approved for an empty list of elements. *)
Definition carol_request_id : string := _generate_request_id "ws1" "carol" (t0 + 13).

Definition ledger_empty_borrow : ledger :=
  run utcfromtimestamp_float
    (run utcfromtimestamp_float ledger_ws1
       (RequestBorrow "ws1" [] "carol" "" (t0 + 13) (t0 + 14)))
    (ApproveBorrow carol_request_id "alice" (t0 + 20) (t0 + 21)).

Definition carol_borrow : Borrow.t :=
  {| Borrow.borrower := "carol";
     Borrow.element_ids := [];
     Borrow.borrowed_at := isoformat (t0 + 20);
     Borrow.expires_at := isoformat (t0 + 21 + hours 24);
     Borrow.request_id := carol_request_id |}.

(** * Properties *)

(** ** The insertion-ordered dict *)

Section ActiveDictFacts.
Context {V : Type}.
Implicit Types (d : list (string * V)) (k : string) (v : V).

Lemma od_get_set_eq d k v : od_get (od_set d k v) k = Some v.
Proof.
  induction d as [|[k' v'] d IH]; simpl.
  - by rewrite decide_True.
  - destruct (decide (k' = k)) as [->|Hne]; simpl.
    + by rewrite decide_True.
    + by rewrite decide_False.
Qed.

Lemma od_get_set_ne d k k' v : k <> k' -> od_get (od_set d k v) k' = od_get d k'.
Proof.
  intros Hne. induction d as [|[k0 v0] d IH]; simpl.
  - by rewrite decide_False.
  - destruct (decide (k0 = k)) as [->|Hk]; simpl.
    + by rewrite !decide_False.
    + destruct (decide (k0 = k')); [done | apply IH].
Qed.

Lemma od_get_del_eq d k : od_get (od_del d k) k = None.
Proof.
  induction d as [|[k' v'] d IH]; simpl; [done|].
  destruct (decide (k' = k)) as [->|Hne]; simpl; [done|].
  by rewrite decide_False.
Qed.

Lemma od_get_del_ne d k k' : k <> k' -> od_get (od_del d k) k' = od_get d k'.
Proof.
  intros Hne. induction d as [|[k0 v0] d IH]; simpl; [done|].
  destruct (decide (k0 = k)) as [->|Hk]; simpl.
  - by rewrite decide_False.
  - by rewrite IH.
Qed.

Lemma od_set_id d k v : od_get d k = Some v -> od_set d k v = d.
Proof.
  induction d as [|[k' v'] d IH]; simpl; [done|].
  destruct (decide (k' = k)) as [->|Hne]; [congruence|].
  intros H. by rewrite IH.
Qed.

Lemma od_set_set d k v v' : od_set (od_set d k v) k v' = od_set d k v'.
Proof.
  induction d as [|[k0 v0] d IH]; simpl.
  - by rewrite decide_True.
  - destruct (decide (k0 = k)) as [->|Hne]; simpl.
    + by rewrite decide_True.
    + by rewrite decide_False, IH.
Qed.

Lemma od_del_set d k v : od_del (od_set d k v) k = od_del d k.
Proof.
  induction d as [|[k0 v0] d IH]; simpl.
  - by rewrite decide_True.
  - destruct (decide (k0 = k)) as [->|Hne]; simpl.
    + by rewrite decide_True.
    + by rewrite decide_False, IH.
Qed.

Lemma od_get_elem_of d k v : od_get d k = Some v -> (k, v) ∈ d.
Proof.
  induction d as [|[k' v'] d IH]; simpl; [done|].
  destruct (decide (k' = k)) as [->|Hne].
  - intros [= ->]. left.
  - intros H. right. by apply IH.
Qed.

Lemma od_get_None d k : od_get d k = None <-> k ∉ d.*1.
Proof.
  induction d as [|[k' v'] d IH]; simpl.
  - split; [intros _; apply not_elem_of_nil | done].
  - rewrite not_elem_of_cons. destruct (decide (k' = k)) as [->|Hne].
    + split; [done | intros [? _]; done].
    + rewrite IH. split; [intros ?; split; [congruence | done] | intros [_ ?]; done].
Qed.

Lemma od_elem_of_get d k v : NoDup d.*1 -> (k, v) ∈ d -> od_get d k = Some v.
Proof.
  induction d as [|[k' v'] d IH]; simpl.
  - intros _ H. by apply elem_of_nil in H.
  - intros Hnd Hin. apply NoDup_cons in Hnd as [Hk Hnd].
    apply elem_of_cons in Hin as [[= <- <-]|Hin].
    + by rewrite decide_True.
    + rewrite decide_False; [by apply IH|].
      intros ->. apply Hk. apply list_elem_of_fmap. by exists (k, v).
Qed.

Lemma od_set_keys d k v x : x ∈ (od_set d k v).*1 <-> x = k \/ x ∈ d.*1.
Proof.
  induction d as [|[k' v'] d IH]; simpl.
  - rewrite list_elem_of_singleton, elem_of_nil. tauto.
  - destruct (decide (k' = k)) as [->|Hne]; simpl.
    + rewrite !elem_of_cons. tauto.
    + rewrite !elem_of_cons, IH. tauto.
Qed.

Lemma od_set_NoDup d k v : NoDup d.*1 -> NoDup (od_set d k v).*1.
Proof.
  induction d as [|[k' v'] d IH]; simpl.
  - intros _. apply NoDup_singleton.
  - intros [Hk Hnd]%NoDup_cons.
    destruct (decide (k' = k)) as [->|Hne]; simpl; apply NoDup_cons.
    + done.
    + split; [|auto]. rewrite od_set_keys. intros [?|?]; done.
Qed.

Lemma od_del_sublist d k : sublist (od_del d k) d.
Proof.
  induction d as [|[k' v'] d IH]; simpl; [done|].
  destruct (decide (k' = k)); [by apply sublist_cons | by apply sublist_skip].
Qed.

Lemma od_del_NoDup d k : NoDup d.*1 -> NoDup (od_del d k).*1.
Proof.
  intros H. eapply sublist_NoDup; [exact H|].
  apply (fmap_sublist fst), od_del_sublist.
Qed.

Lemma od_del_notin d k : k ∉ d.*1 -> od_del d k = d.
Proof.
  induction d as [|[k' v'] d IH]; simpl; [done|].
  rewrite not_elem_of_cons. intros [Hne Hnin].
  rewrite decide_False by congruence. by rewrite IH.
Qed.

Lemma od_set_app_notin d1 d2 k v :
  k ∉ d1.*1 -> od_set (d1 ++ d2) k v = d1 ++ od_set d2 k v.
Proof.
  induction d1 as [|[k' v'] d1 IH]; simpl; [done|].
  rewrite not_elem_of_cons. intros [Hne Hnin].
  rewrite decide_False by congruence. by rewrite IH.
Qed.

Lemma od_del_app d1 d2 k : od_del (d1 ++ d2) k = od_del d1 k ++ od_del d2 k.
Proof.
  induction d1 as [|[k' v'] d1 IH]; simpl; [done|].
  destruct (decide (k' = k)); simpl; by rewrite IH.
Qed.

Lemma od_set_Forall (P : string * V -> Prop) d k v :
  Forall P d -> P (k, v) -> Forall P (od_set d k v).
Proof.
  induction 1 as [|[k' v'] d HP Hd IH]; simpl; intros Hkv.
  - by constructor.
  - destruct (decide (k' = k)); constructor; auto.
Qed.

Lemma od_del_Forall (P : string * V -> Prop) d k :
  Forall P d -> Forall P (od_del d k).
Proof.
  induction 1 as [|[k' v'] d HP Hd IH]; simpl; [done|].
  destruct (decide (k' = k)); [done | by constructor].
Qed.
End ActiveDictFacts.

(** ** Which calls touch the active-borrow table *)

Section Frames.
Variable utcfromtimestamp_micros : Z -> option datetime.

Lemma register_workset_active s workset_id workset_name owner document_guid kwargs
    now1 now2 now3 :
  active_borrows (register_workset s workset_id workset_name owner document_guid
                    kwargs now1 now2 now3).1 = active_borrows s.
Proof. unfold register_workset. repeat case_match; done. Qed.

Lemma transfer_ownership_active s workset_id from_user to_user timestamp kwargs now :
  active_borrows (transfer_ownership utcfromtimestamp_micros s workset_id from_user
                    to_user timestamp kwargs now).1 = active_borrows s.
Proof. unfold transfer_ownership. repeat case_match; done. Qed.

Lemma request_borrow_active s workset_id element_ids user_id reason now1 now2 :
  active_borrows (request_borrow s workset_id element_ids user_id reason now1 now2).1
  = active_borrows s.
Proof. unfold request_borrow. repeat case_match; done. Qed.

Lemma get_workset_status_ledger s workset_id :
  (get_workset_status s workset_id).1 = s.
Proof. unfold get_workset_status. repeat case_match; done. Qed.
End Frames.

(** ** No empty list in the active-borrow table *)

Lemma snoc_not_nil {A} (l : list A) (x : A) : l ++ [x] <> [].
Proof. by destruct l. Qed.

Lemma approve_borrow_no_empty_list s request_id owner_id now1 now2 :
  no_empty_list (active_borrows s) ->
  no_empty_list (active_borrows (approve_borrow s request_id owner_id now1 now2).1).
Proof.
  intros Hs. unfold approve_borrow.
  destruct (find_request s request_id) as [[i r]|]; [|done].
  repeat case_match; try done; simpl in *.
  - apply od_set_Forall; [done | apply snoc_not_nil].
  - rewrite od_set_set. apply od_set_Forall; [done | apply snoc_not_nil].
Qed.

Lemma release_borrowed_no_empty_list s workset_id element_ids user_id now :
  no_empty_list (active_borrows s) ->
  no_empty_list (active_borrows (release_borrowed s workset_id element_ids user_id now).1).
Proof.
  intros Hs. unfold release_borrowed.
  destruct (od_get (active_borrows s) workset_id) as [borrows|]; [|done].
  destruct (filter _ borrows) as [|b user_borrows]; [done|].
  destruct (fold_left _ _ _) as [[|b' borrows'] released]; simpl.
  - rewrite od_del_set. by apply od_del_Forall.
  - by apply od_set_Forall.
Qed.

Lemma expire_workset_no_empty_list current_time acc item :
  no_empty_list acc.1 -> no_empty_list (expire_workset current_time acc item).1.
Proof.
  destruct acc as [active expired], item as [workset_id borrows]. simpl.
  intros Hs. destruct (fold_left _ _ _) as [[|b' borrows'] expired']; simpl.
  - rewrite od_del_set. by apply od_del_Forall.
  - by apply od_set_Forall.
Qed.

Lemma check_expired_borrows_no_empty_list s current_time :
  no_empty_list (active_borrows s) ->
  no_empty_list (active_borrows (check_expired_borrows s current_time).1).
Proof.
  intros Hs. unfold check_expired_borrows.
  assert (H : forall items acc, no_empty_list acc.1 ->
            no_empty_list (fold_left (expire_workset current_time) items acc).1).
  { induction items as [|item items IH]; intros acc Hacc; simpl; [done|].
    by apply IH, expire_workset_no_empty_list. }
  specialize (H (active_borrows s) (active_borrows s, []) Hs).
  by destruct (fold_left _ _ _).
Qed.

(** C6.  In every state reachable from the initial empty ledger by any
    sequence of calls, every workset key present in the active-borrow table
    maps to a non-empty list: [release_borrowed] and [check_expired_borrows]
    delete an entry whose list has become empty, and no operation leaves an
    empty list behind. *)
Theorem reachable_active_lists_nonempty utcfromtimestamp_micros s workset_id borrows :
  reachable utcfromtimestamp_micros s ->
  od_get (active_borrows s) workset_id = Some borrows ->
  borrows <> [].
Proof.
  intros Hs Hget.
  assert (Hinv : no_empty_list (active_borrows s)).
  { clear Hget. induction Hs as [|s c Hs IH]; [constructor|].
    destruct c; simpl.
    - by rewrite register_workset_active.
    - by rewrite transfer_ownership_active.
    - by rewrite request_borrow_active.
    - by apply approve_borrow_no_empty_list.
    - by apply release_borrowed_no_empty_list.
    - by apply check_expired_borrows_no_empty_list.
    - by rewrite get_workset_status_ledger. }
  apply od_get_elem_of in Hget.
  unfold no_empty_list in Hinv. rewrite Forall_forall in Hinv.
  exact (Hinv _ Hget).
Qed.

(** ** Status query *)

(** C10.  [get_workset_status] is read-only: for every state and every
    workset id, registered or not, the call leaves the whole ledger as it
    was: [workset_owners], [workset_metadata], [borrow_requests],
    [active_borrows] and both history logs. *)
Theorem get_workset_status_read_only s workset_id :
  let s' := (get_workset_status s workset_id).1 in
  s' = s /\
  workset_owners s' = workset_owners s /\
  workset_metadata s' = workset_metadata s /\
  metadata_objects s' = metadata_objects s /\
  borrow_requests s' = borrow_requests s /\
  active_borrows s' = active_borrows s /\
  borrow_history s' = borrow_history s /\
  ownership_history s' = ownership_history s.
Proof.
  assert (H : (get_workset_status s workset_id).1 = s).
  { unfold get_workset_status.
    destruct (workset_owners s !! workset_id); [|done].
    by destruct (workset_metadata s !! workset_id). }
  simpl. by rewrite H.
Qed.

(** ** Registration *)

(** C8.  [register_workset] fails with the missing-parameters error exactly
    when one of [workset_id], [workset_name], [owner] is empty or [None], and
    then leaves the ledger unchanged.  Otherwise, whoever owned the workset,
    it overwrites the owner and the metadata, appends exactly one entry to
    [ownership_history], and returns the action ["updated"] when the workset
    was already registered and ["registered"] when it is new. *)
Theorem register_workset_spec s workset_id workset_name owner document_guid kwargs
    now1 now2 now3 :
  let '(s', out) := register_workset s workset_id workset_name owner document_guid
                      kwargs now1 now2 now3 in
  if truthy workset_id && truthy workset_name && truthy owner
  then exists wid wname own,
    workset_id = Some wid /\ workset_name = Some wname /\ owner = Some own /\
    let action := if decide (is_Some (workset_owners s !! wid))
                  then "updated" else "registered" in
    let addr := length (metadata_objects s) in
    out = Returns [("success", PBool true); ("workset_id", PStr wid);
                   ("action", PStr action)] /\
    workset_owners s' = <[wid := own]> (workset_owners s) /\
    workset_metadata s' = <[wid := addr]> (workset_metadata s) /\
    metadata_objects s' =
      metadata_objects s ++ [registered_metadata wname document_guid kwargs now1 now2] /\
    ownership_history s' =
      ownership_history s ++ [registered_entry wid action own now3 addr] /\
    borrow_requests s' = borrow_requests s /\
    borrow_history s' = borrow_history s /\
    active_borrows s' = active_borrows s
  else out = Returns (failure missing_parameters) /\ s' = s.
Proof.
  unfold register_workset.
  destruct (truthy workset_id && truthy workset_name && truthy owner) eqn:Hall;
    simpl; [|done].
  destruct workset_id as [wid|], workset_name as [wname|], owner as [own|];
    simpl in Hall; try done; try (by rewrite ?andb_false_r in Hall).
  assert (Haction : (if bool_decide (workset_owners s !! wid = None)
                     then "registered" else "updated")
                    = if decide (is_Some (workset_owners s !! wid))
                      then "updated" else "registered").
  { destruct (workset_owners s !! wid) eqn:Hw.
    - rewrite bool_decide_false by done. by rewrite decide_True by eauto.
    - rewrite bool_decide_true by done. rewrite decide_False; [done|].
      by intros [? ?]. }
  exists wid, wname, own. rewrite Haction. by split_and!.
Qed.

(** ** Ownership transfer *)

Section Transfer.
Variable utcfromtimestamp_micros : Z -> option datetime.

(** The three preconditions, in the order they are checked, and what a
    call does when they hold. *)
Lemma transfer_ownership_preconditions s workset_id from_user to_user timestamp
    kwargs now :
  metadata_consistent s ->
  let '(s', out) := transfer_ownership utcfromtimestamp_micros s workset_id
                      from_user to_user timestamp kwargs now in
  (returns_success out = true <->
     workset_owners s !! workset_id = Some from_user /\
     has_active_borrows s workset_id = false /\
     is_Some (utcfromtimestamp_micros timestamp)) /\
  (workset_owners s !! workset_id = None ->
     out = Returns (failure workset_not_found) /\ s' = s) /\
  (forall current, workset_owners s !! workset_id = Some current ->
     current <> from_user ->
     out = Returns (failure (not_current_owner from_user)) /\ s' = s) /\
  (workset_owners s !! workset_id = Some from_user ->
     has_active_borrows s workset_id = true ->
     out = Returns (failure transfer_with_active_borrows) /\ s' = s) /\
  (workset_owners s !! workset_id = Some from_user ->
     has_active_borrows s workset_id = false ->
     utcfromtimestamp_micros timestamp = None ->
     out = Raises TimestampError /\
     workset_owners s' !! workset_id = Some to_user /\
     ownership_history s' = ownership_history s).
Proof.
  intros Hmeta. unfold transfer_ownership.
  destruct (workset_owners s !! workset_id) as [current|] eqn:Hown.
  2: { simpl. split; [split; [done | intros [? _]; done]|]. split_and!; naive_solver. }
  destruct (String.eqb_spec current from_user) as [->|Hne]; simpl.
  2: { split; [split; [done | intros [? _]; congruence]|].
       split_and!; naive_solver. }
  destruct (has_active_borrows s workset_id) eqn:Hact; simpl.
  { split; [split; [done | intros (_ & ? & _); done]|]. split_and!; naive_solver. }
  destruct (Hmeta workset_id) as [addr Haddr]; [by rewrite Hown|].
  rewrite Haddr.
  destruct (utcfromtimestamp_micros timestamp) as [t|] eqn:Hts; simpl.
  - split; [split; [intros _; split_and!; eauto | reflexivity]|].
    split_and!; naive_solver.
  - split; [split; [done | intros (_ & _ & [? ?]); done]|].
    split_and!; try naive_solver. intros _ _ _. split_and!; try done.
    apply lookup_insert_eq.
Qed.
End Transfer.

(** ** Borrow approval *)

Lemma od_set_count {A} (d : list (string * list A)) k l l' :
  od_get d k = Some l ->
  (length (concat (od_values (od_set d k l'))) + length l
   = length (concat (od_values d)) + length l')%nat.
Proof.
  unfold od_values. induction d as [|[k0 l0] d IH]; simpl; [done|].
  destruct (decide (k0 = k)) as [->|Hne]; simpl.
  - intros [= ->]. rewrite !length_app. lia.
  - intros Hget. rewrite !length_app. specialize (IH Hget). lia.
Qed.

Lemma od_set_count_new {A} (d : list (string * list A)) k l' :
  od_get d k = None ->
  length (concat (od_values (od_set d k l')))
  = (length (concat (od_values d)) + length l')%nat.
Proof.
  unfold od_values. induction d as [|[k0 l0] d IH]; simpl.
  - intros _. rewrite app_nil_r. lia.
  - destruct (decide (k0 = k)) as [->|Hne]; [done|]. simpl.
    intros Hget. rewrite !length_app, IH by done. lia.
Qed.

Lemma find_request_update s request_id i r r' :
  find_request s request_id = Some (i, r) ->
  Request.request_id r' = request_id ->
  list_find (fun x => Request.request_id x = request_id)
            (<[i := r']> (borrow_requests s)) = Some (i, r').
Proof.
  unfold find_request. intros (Hi & Hr & Hleast)%list_find_Some Hid.
  apply list_find_insert_Some. right; left.
  split_and!; eauto using lookup_lt_Some.
Qed.

Lemma request_already_not_refusal status :
  failure (request_already status) <> failure only_owner_can_approve.
Proof. by intros [=]. Qed.

Lemma approve_borrow_pending s request_id i r now1 now2 :
  find_request s request_id = Some (i, r) ->
  Request.status r = "pending" ->
  returns_success (approve_borrow s request_id (Request.owner r) now1 now2).2 = true.
Proof.
  intros Hfind Hstatus. unfold approve_borrow.
  by rewrite Hfind, String.eqb_refl, Hstatus.
Qed.

Lemma approve_borrow_requests s request_id i r now1 now2 :
  find_request s request_id = Some (i, r) ->
  Request.status r = "pending" ->
  borrow_requests (approve_borrow s request_id (Request.owner r) now1 now2).1
  = <[i := approve_request r (isoformat now1)
             (isoformat (now2 + hours (borrow_timeout_hours s)))]> (borrow_requests s).
Proof.
  intros Hfind Hstatus. unfold approve_borrow.
  rewrite Hfind, String.eqb_refl, Hstatus. simpl. by case_match.
Qed.

Lemma approve_borrow_processed s request_id i r now1 now2 :
  find_request s request_id = Some (i, r) ->
  Request.status r <> "pending" ->
  approve_borrow s request_id (Request.owner r) now1 now2
  = (s, Returns (failure (request_already (Request.status r)))).
Proof.
  intros Hfind Hstatus. unfold approve_borrow.
  rewrite Hfind, String.eqb_refl. simpl.
  by destruct (String.eqb_spec (Request.status r) "pending").
Qed.

Lemma approve_borrow_refused s request_id owner_id i r now1 now2 :
  find_request s request_id = Some (i, r) ->
  owner_id <> Request.owner r ->
  approve_borrow s request_id owner_id now1 now2
  = (s, Returns (failure only_owner_can_approve)).
Proof.
  intros Hfind Hne. unfold approve_borrow. rewrite Hfind.
  by destruct (String.eqb_spec (Request.owner r) owner_id) as [<-|?].
Qed.


(** With distinct request ids, every stored request is the one its id
    resolves to. *)
Lemma find_request_unique s r :
  NoDup (Request.request_id <$> borrow_requests s) ->
  r ∈ borrow_requests s ->
  exists i, find_request s (Request.request_id r) = Some (i, r).
Proof.
  intros Hnd [i Hi]%list_elem_of_lookup. exists i.
  apply list_find_Some. split_and!; [done..|].
  intros j y Hj Hlt Hid.
  assert (i = j); [|lia].
  eapply NoDup_lookup; [exact Hnd | |]; rewrite list_lookup_fmap.
  - by rewrite Hi.
  - by rewrite Hj; simpl; rewrite Hid.
Qed.

Section Snapshot.
Variable utcfromtimestamp_micros : Z -> option datetime.

Lemma transfer_ownership_requests s workset_id from_user to_user timestamp kwargs now :
  borrow_requests (transfer_ownership utcfromtimestamp_micros s workset_id from_user
                     to_user timestamp kwargs now).1 = borrow_requests s.
Proof. unfold transfer_ownership. repeat case_match; done. Qed.


End Snapshot.


(** C4.  For a pending request, approving it twice in succession with the
    snapshotted owner succeeds the first time and adds one active borrow;
    the second call fails with the already-processed error, whose message
    carries the current status ["approved"], adds no active borrow and
    leaves the whole ledger unchanged. *)
Theorem approve_borrow_twice s request_id i r now1 now2 now3 now4 :
  find_request s request_id = Some (i, r) ->
  Request.status r = "pending" ->
  let first := approve_borrow s request_id (Request.owner r) now1 now2 in
  let second := approve_borrow first.1 request_id (Request.owner r) now3 now4 in
  returns_success first.2 = true /\
  length (all_borrows first.1) = S (length (all_borrows s)) /\
  second.2 = Returns (failure (request_already "approved")) /\
  request_already "approved" = "Request already approved" /\
  all_borrows second.1 = all_borrows first.1 /\
  second.1 = first.1.
Proof.
  intros Hfind Hpending first second.
  assert (Hfirst : find_request first.1 request_id
                   = Some (i, approve_request r (isoformat now1)
                                (isoformat (now2 + hours (borrow_timeout_hours s))))).
  { unfold find_request. subst first.
    rewrite (approve_borrow_requests _ _ _ _ _ _ Hfind Hpending).
    eapply find_request_update; [exact Hfind|]. simpl.
    by apply list_find_Some in Hfind as (_ & ? & _). }
  assert (Hsecond : second = (first.1, Returns (failure (request_already "approved")))).
  { subst second. by apply (approve_borrow_processed _ _ _ _ now3 now4 Hfirst). }
  split_and!.
  - by eapply approve_borrow_pending.
  - subst first. unfold approve_borrow, all_borrows.
    rewrite Hfind, String.eqb_refl, Hpending. simpl.
    destruct (od_get (active_borrows s) (Request.workset_id r)) as [l|] eqn:Hget; simpl.
    + rewrite Hget. simpl.
      pose proof (od_set_count (active_borrows s) _ l
                    (l ++ [{| Borrow.borrower := Request.borrower r;
                              Borrow.element_ids := Request.element_ids r;
                              Borrow.borrowed_at := isoformat now1;
                              Borrow.expires_at :=
                                isoformat (now2 + hours (borrow_timeout_hours s));
                              Borrow.request_id := request_id |}]) Hget) as Hc.
      rewrite length_app in Hc. simpl in Hc. unfold od_values in *. lia.
    + rewrite od_get_set_eq, od_set_set. simpl.
      rewrite od_set_count_new by done. simpl. lia.
  - by rewrite Hsecond.
  - done.
  - by rewrite Hsecond.
  - by rewrite Hsecond.
Qed.

(** ** Release *)

Lemma set_active_borrows_same s : set_active_borrows (active_borrows s) s = s.
Proof. by destruct s. Qed.

Lemma release_step_disjoint element_ids borrows released borrow :
  (forall e, e ∈ Borrow.element_ids borrow -> e ∉ element_ids) ->
  release_step element_ids (borrows, released) borrow = (borrows, released).
Proof.
  intros Hdisjoint. unfold release_step.
  assert (Hall : filter (fun e => e ∉ element_ids) (Borrow.element_ids borrow)
                 = Borrow.element_ids borrow).
  { induction (Borrow.element_ids borrow) as [|e l IH]; [done|].
    rewrite filter_cons_True by (apply Hdisjoint; left).
    f_equal. apply IH. intros e' He'. apply Hdisjoint. by right. }
  rewrite Hall. by rewrite Nat.ltb_irrefl.
Qed.

Lemma release_loop_disjoint element_ids user_borrows borrows released :
  (forall b e, b ∈ user_borrows -> e ∈ Borrow.element_ids b -> e ∉ element_ids) ->
  fold_left (release_step element_ids) user_borrows (borrows, released)
  = (borrows, released).
Proof.
  induction user_borrows as [|b user_borrows IH]; intros Hdisjoint; [done|].
  cbn [fold_left]. rewrite release_step_disjoint.
  - apply IH. intros b' e Hb'. apply Hdisjoint. by right.
  - intros e. apply Hdisjoint. left.
Qed.

(** C7.  When [user_id] holds at least one active borrow on [workset_id]
    and none of the requested element ids occurs in any of that user's
    borrows on the workset, [release_borrowed] returns success with an empty
    list of released elements, and the active-borrow table (indeed the whole
    ledger) is unchanged. *)
Theorem release_borrowed_nothing_to_release s workset_id element_ids user_id now borrows :
  od_get (active_borrows s) workset_id = Some borrows ->
  (exists b, b ∈ borrows /\ Borrow.borrower b = user_id) ->
  (forall b e, b ∈ borrows -> Borrow.borrower b = user_id ->
               e ∈ Borrow.element_ids b -> e ∉ element_ids) ->
  release_borrowed s workset_id element_ids user_id now
  = (s, Returns [("success", PBool true);
                 ("released_elements", PStrs []);
                 ("released_at", PIso (isoformat now))]).
Proof.
  intros Hget (b0 & Hb0 & Huser) Hdisjoint. unfold release_borrowed. rewrite Hget.
  destruct (filter _ borrows) as [|b user_borrows] eqn:Hfilter.
  { assert (Hin : b0 ∈ filter (fun b => Borrow.borrower b = user_id) borrows)
      by (by apply list_elem_of_filter).
    rewrite Hfilter in Hin. by apply elem_of_nil in Hin. }
  rewrite release_loop_disjoint.
  - rewrite od_set_id by done.
    destruct borrows as [|b1 borrows]; [by apply elem_of_nil in Hb0|].
    by rewrite set_active_borrows_same.
  - intros b' e Hb'. rewrite <- Hfilter in Hb'.
    apply list_elem_of_filter in Hb' as [Hu Hb']. by apply Hdisjoint.
Qed.

(** ** Expiry sweep *)

Lemma list_remove_app kept x l :
  (forall y, y ∈ kept -> y <> x) -> list_remove x (kept ++ x :: l) = kept ++ l.
Proof.
  induction kept as [|y kept IH]; intros Hkept; simpl.
  - by rewrite decide_True.
  - rewrite decide_False by (apply Hkept; left).
    f_equal. apply IH. intros y' Hy'. apply Hkept. by right.
Qed.

(** The inner loop removes from the list exactly the expired borrows of the
    copy it iterates over. *)
Lemma expire_loop current_time workset_id borrows kept reported :
  Forall (fun b => ~ expired current_time b) kept ->
  fold_left (expire_step current_time workset_id) borrows (kept ++ borrows, reported)
  = (kept ++ filter (fun b => ~ expired current_time b) borrows,
     reported ++ (expired_entry workset_id <$> filter (expired current_time) borrows)).
Proof.
  revert kept reported.
  induction borrows as [|b borrows IH]; intros kept reported Hkept.
  { simpl. by rewrite !app_nil_r. }
  cbn [fold_left]. unfold expire_step at 2.
  destruct (Z.ltb_spec (fromisoformat (Borrow.expires_at b)) current_time) as [Hlt|Hge].
  - rewrite list_remove_app.
    + rewrite IH by done.
      rewrite filter_cons_False by (intros H; by apply H).
      rewrite (filter_cons_True (expired current_time)) by done.
      by rewrite fmap_cons, <- app_assoc.
    + intros y Hy ->. rewrite Forall_forall in Hkept. by apply (Hkept b).
  - assert (Hb : ~ expired current_time b) by (unfold expired; lia).
    rewrite (cons_middle b kept borrows), app_assoc.
    rewrite IH by (apply Forall_app; split; [done | by constructor]).
    rewrite filter_cons_True by done.
    rewrite (filter_cons_False (expired current_time)) by done.
    by rewrite <- app_assoc.
Qed.

(** One workset of the outer loop, in a table whose keys are distinct. *)
Lemma expire_workset_item current_time done workset_id borrows rest reported :
  workset_id ∉ done.*1 ->
  workset_id ∉ rest.*1 ->
  expire_workset current_time (done ++ (workset_id, borrows) :: rest, reported)
    (workset_id, borrows)
  = (done ++ swept current_time [(workset_id, borrows)] ++ rest,
     reported ++ expired_entries current_time [(workset_id, borrows)]).
Proof.
  intros Hdone Hrest. unfold expire_workset.
  pose proof (expire_loop current_time workset_id borrows [] reported) as Hloop.
  cbn [app] in Hloop. rewrite Hloop by constructor.
  unfold swept, expired_entries. simpl. rewrite app_nil_r.
  rewrite od_set_app_notin by done. simpl. rewrite decide_True by done.
  destruct (filter _ borrows) as [|b l]; simpl; [|done].
  rewrite od_del_app. simpl. rewrite decide_True by done.
  by rewrite !od_del_notin.
Qed.

Lemma swept_app current_time d1 d2 :
  swept current_time (d1 ++ d2) = swept current_time d1 ++ swept current_time d2.
Proof. apply omap_app. Qed.

Lemma expired_entries_app current_time d1 d2 :
  expired_entries current_time (d1 ++ d2)
  = expired_entries current_time d1 ++ expired_entries current_time d2.
Proof. apply bind_app. Qed.

Lemma swept_keys current_time d workset_id :
  workset_id ∈ (swept current_time d).*1 -> workset_id ∈ d.*1.
Proof.
  induction d as [|[k l] d IH]; simpl; [done|].
  unfold swept in *. simpl.
  destruct (filter _ l) as [|b l']; simpl.
  - intros ?. right. by apply IH.
  - intros [->|?]%elem_of_cons; [left | right; by apply IH].
Qed.

Lemma expire_worksets current_time items done reported :
  NoDup (done ++ items).*1 ->
  fold_left (expire_workset current_time) items
    (swept current_time done ++ items, reported)
  = (swept current_time (done ++ items),
     reported ++ expired_entries current_time items).
Proof.
  revert done reported.
  induction items as [|[workset_id borrows] items IH]; intros done reported Hnd.
  { simpl. unfold expired_entries. simpl. by rewrite !app_nil_r. }
  cbn [fold_left].
  rewrite fmap_app, fmap_cons in Hnd. pose proof Hnd as Hnd'.
  apply NoDup_app in Hnd' as (_ & Hdisj & [Hk _]%NoDup_cons).
  rewrite expire_workset_item.
  - rewrite app_assoc, <- swept_app.
    rewrite (IH (done ++ [(workset_id, borrows)])).
    + rewrite <- !app_assoc. simpl. by rewrite app_nil_r.
    + rewrite <- app_assoc, fmap_app. exact Hnd.
  - intros Hin%swept_keys. apply (Hdisj _ Hin). left.
  - done.
Qed.

Lemma check_expired_borrows_swept s current_time :
  NoDup (active_borrows s).*1 ->
  check_expired_borrows s current_time
  = (set_active_borrows (swept current_time (active_borrows s)) s,
     Returns (expired_entries current_time (active_borrows s))).
Proof.
  intros Hnd. unfold check_expired_borrows.
  pose proof (expire_worksets current_time (active_borrows s) [] [] Hnd) as H.
  simpl in H. by rewrite H.
Qed.

Lemma swept_lookup current_time d workset_id remaining :
  NoDup d.*1 ->
  od_get (swept current_time d) workset_id = Some remaining ->
  exists borrows,
    od_get d workset_id = Some borrows /\
    remaining = filter (fun b => ~ expired current_time b) borrows.
Proof.
  intros Hnd Hget%od_get_elem_of.
  apply list_elem_of_omap in Hget as ([k borrows] & Hin & Hitem).
  simpl in Hitem. exists borrows.
  destruct (filter _ borrows) as [|b l]; [done|]. simplify_eq.
  split; [by apply od_elem_of_get | done].
Qed.

Lemma expired_entries_elem_of current_time d entry :
  entry ∈ expired_entries current_time d <->
  exists workset_id borrows b,
    (workset_id, borrows) ∈ d /\ b ∈ borrows /\ expired current_time b /\
    entry = expired_entry workset_id b.
Proof.
  unfold expired_entries. rewrite list_elem_of_bind. split.
  - intros ([k borrows] & Hentry & Hin). simpl in Hentry.
    apply list_elem_of_fmap in Hentry as (b & -> & [Hexp Hb]%list_elem_of_filter).
    by exists k, borrows, b.
  - intros (k & borrows & b & Hin & Hb & Hexp & ->).
    exists (k, borrows). split; [|done]. simpl.
    apply list_elem_of_fmap. exists b. split; [done|].
    by apply list_elem_of_filter.
Qed.

(** C5.  [check_expired_borrows] returns exactly the active borrows whose
    [expires_at] is strictly before the current time, each reported with its
    workset (never one that expires now or later); after the call no
    returned borrow, indeed no expired borrow, is left in the active-borrow
    table, and nothing else of the ledger has changed. *)
Theorem check_expired_borrows_spec s current_time :
  NoDup (active_borrows s).*1 ->
  let '(s', out) := check_expired_borrows s current_time in
  out = Returns (expired_entries current_time (active_borrows s)) /\
  (forall entry, entry ∈ expired_entries current_time (active_borrows s) <->
     exists workset_id borrows b,
       od_get (active_borrows s) workset_id = Some borrows /\ b ∈ borrows /\
       fromisoformat (Borrow.expires_at b) < current_time /\
       entry = expired_entry workset_id b) /\
  (forall workset_id borrows b,
     od_get (active_borrows s) workset_id = Some borrows -> b ∈ borrows ->
     fromisoformat (Borrow.expires_at b) < current_time ->
     forall remaining, od_get (active_borrows s') workset_id = Some remaining ->
                       b ∉ remaining) /\
  (forall workset_id remaining b,
     od_get (active_borrows s') workset_id = Some remaining -> b ∈ remaining ->
     current_time <= fromisoformat (Borrow.expires_at b)) /\
  active_borrows s' = swept current_time (active_borrows s) /\
  set_active_borrows (active_borrows s) s' = s.
Proof.
  intros Hnd. rewrite check_expired_borrows_swept by done. simpl.
  split_and!; [done | | | | done | by destruct s].
  - intros entry. rewrite expired_entries_elem_of. split.
    + intros (k & borrows & b & Hin & Hb & Hexp & ->).
      exists k, borrows, b. split_and!; try done. by apply od_elem_of_get.
    + intros (k & borrows & b & Hget & Hb & Hexp & ->).
      exists k, borrows, b. split_and!; try done. by apply od_get_elem_of.
  - intros k borrows b Hget Hb Hexp remaining Hrem.
    apply swept_lookup in Hrem as (borrows' & Hget' & ->); [|done].
    intros [Hkeep _]%list_elem_of_filter. by apply Hkeep.
  - intros k remaining b Hrem Hb.
    apply swept_lookup in Hrem as (borrows' & Hget' & ->); [|done].
    apply list_elem_of_filter in Hb as [Hkeep _]. unfold expired in Hkeep. lia.
Qed.

(** ** The timestamp conversion *)





(** ** The transfer log *)



(** C1 fails on the code at a timestamp [datetime] cannot represent.  On
    the ledger holding ["ws1"] owned by alice with no active borrow, all
    three preconditions of
    [transfer_ownership("ws1", "alice", "carol", 10**30)] hold, yet the call
    does not return success: it raises out of [utcfromtimestamp], after the
    owner has been reassigned to carol and before the log entry is written. *)
Theorem transfer_ownership_raises_after_reassigning :
  let s := ledger_ws1 in
  let call := transfer_ownership utcfromtimestamp_float s
                "ws1" "alice" "carol" (10 ^ 30) [] (t0 + 60) in
  workset_owners s !! "ws1" = Some "alice" /\
  has_active_borrows s "ws1" = false /\
  call.2 = Raises TimestampError /\
  returns_success call.2 = false /\
  workset_owners call.1 !! "ws1" = Some "carol" /\
  ownership_history call.1 = ownership_history s.
Proof. intros s call. subst s call. split_and!; by vm_compute. Qed.

(** ** The ceiling on concurrent borrows *)

(** The ceiling is checked when a request is filed and only then: a
    successful [request_borrow] means the requester then held fewer active
    borrows than the ceiling. *)
Lemma request_borrow_below_ceiling s workset_id element_ids user_id reason now1 now2 :
  returns_success (request_borrow s workset_id element_ids user_id reason now1 now2).2
  = true ->
  user_active_borrows s user_id < max_concurrent_borrows s.
Proof.
  unfold request_borrow.
  destruct (workset_owners s !! workset_id); [|done].
  destruct (_ =? _)%string; [done|].
  destruct (Z.geb_spec (user_active_borrows s user_id) (max_concurrent_borrows s));
    [done | lia].
Qed.

(** C2 fails on the code.  On a new ledger, alice registers ["ws1"], bob
    files eleven borrow requests and alice approves them one by one: all 22
    calls succeed, and bob then holds 11 active borrows, above the ceiling
    [max_concurrent_borrows = 10]. *)
Theorem approvals_exceed_ceiling :
  let filed := file_requests 11 ledger_ws1 in
  let approved := approve_requests 11 filed.1 in
  forallb returns_success (filed.2 ++ approved.2) = true /\
  length (filed.2 ++ approved.2) = 22%nat /\
  max_concurrent_borrows approved.1 = 10 /\
  user_active_borrows approved.1 "bob" = 11.
Proof. intros filed approved. subst filed approved. split_and!; by vm_compute. Qed.

(** ** Reachable ledgers are well formed *)

Lemma approve_borrow_owners s request_id owner_id now1 now2 :
  let s' := (approve_borrow s request_id owner_id now1 now2).1 in
  workset_owners s' = workset_owners s /\ workset_metadata s' = workset_metadata s.
Proof. unfold approve_borrow. repeat case_match; done. Qed.

Lemma release_borrowed_owners s workset_id element_ids user_id now :
  let s' := (release_borrowed s workset_id element_ids user_id now).1 in
  workset_owners s' = workset_owners s /\ workset_metadata s' = workset_metadata s.
Proof. unfold release_borrowed. repeat case_match; done. Qed.

Lemma check_expired_borrows_owners s current_time :
  let s' := (check_expired_borrows s current_time).1 in
  workset_owners s' = workset_owners s /\ workset_metadata s' = workset_metadata s.
Proof. unfold check_expired_borrows. by case_match. Qed.

Lemma request_borrow_owners s workset_id element_ids user_id reason now1 now2 :
  let s' := (request_borrow s workset_id element_ids user_id reason now1 now2).1 in
  workset_owners s' = workset_owners s /\ workset_metadata s' = workset_metadata s.
Proof. unfold request_borrow. repeat case_match; done. Qed.

Lemma register_workset_consistent s workset_id workset_name owner document_guid kwargs
    now1 now2 now3 :
  metadata_consistent s ->
  metadata_consistent (register_workset s workset_id workset_name owner document_guid
                         kwargs now1 now2 now3).1.
Proof.
  intros Hs. unfold register_workset.
  destruct (negb _); [done|].
  destruct workset_id as [wid|], workset_name as [wname|], owner as [own|]; try done.
  intros k. simpl. destruct (decide (wid = k)) as [->|Hne].
  - by rewrite !lookup_insert_eq.
  - rewrite !lookup_insert_ne by done. apply Hs.
Qed.

Lemma transfer_ownership_consistent conv s workset_id from_user to_user timestamp
    kwargs now :
  metadata_consistent s ->
  metadata_consistent (transfer_ownership conv s workset_id from_user to_user
                         timestamp kwargs now).1.
Proof.
  intros Hs. unfold transfer_ownership.
  destruct (workset_owners s !! workset_id) as [current|] eqn:Hown; [|done].
  assert (Hins : forall k, is_Some (<[workset_id := to_user]> (workset_owners s) !! k) ->
                           is_Some (workset_metadata s !! k)).
  { intros k. destruct (decide (workset_id = k)) as [<-|Hne].
    - intros _. apply Hs. by rewrite Hown.
    - rewrite lookup_insert_ne by done. apply Hs. }
  repeat case_match; done.
Qed.

Lemma metadata_consistent_same s s' :
  workset_owners s' = workset_owners s /\ workset_metadata s' = workset_metadata s ->
  metadata_consistent s -> metadata_consistent s'.
Proof. intros [Ho Hm] Hs k. rewrite Ho, Hm. apply Hs. Qed.

Lemma reachable_metadata_consistent conv s : reachable conv s -> metadata_consistent s.
Proof.
  induction 1 as [|s c Hs IH].
  - intros k [? Hk]. simpl in Hk. by rewrite lookup_empty in Hk.
  - destruct c; simpl.
    + by apply register_workset_consistent.
    + by apply transfer_ownership_consistent.
    + eapply metadata_consistent_same; [apply request_borrow_owners | done].
    + eapply metadata_consistent_same; [apply approve_borrow_owners | done].
    + eapply metadata_consistent_same; [apply release_borrowed_owners | done].
    + eapply metadata_consistent_same; [apply check_expired_borrows_owners | done].
    + by rewrite get_workset_status_ledger.
Qed.

Lemma expire_workset_NoDup current_time acc item :
  NoDup acc.1.*1 -> NoDup (expire_workset current_time acc item).1.*1.
Proof.
  destruct acc as [active reported], item as [workset_id borrows]. simpl.
  intros Hnd. destruct (fold_left _ _ _) as [[|b l] reported']; simpl.
  - by apply od_del_NoDup, od_set_NoDup.
  - by apply od_set_NoDup.
Qed.

Lemma reachable_active_keys_NoDup conv s :
  reachable conv s -> NoDup (active_borrows s).*1.
Proof.
  induction 1 as [|s c Hs IH]; [constructor|].
  destruct c; simpl.
  - by rewrite register_workset_active.
  - by rewrite transfer_ownership_active.
  - by rewrite request_borrow_active.
  - unfold approve_borrow. repeat case_match; try done; simpl;
      repeat apply od_set_NoDup; done.
  - unfold release_borrowed. repeat case_match; try done; simpl.
    + by apply od_del_NoDup, od_set_NoDup.
    + by apply od_set_NoDup.
  - unfold check_expired_borrows.
    assert (H : forall items acc, NoDup acc.1.*1 ->
              NoDup (fold_left (expire_workset current_time) items acc).1.*1).
    { induction items as [|item items IHi]; intros acc Hacc; simpl; [done|].
      by apply IHi, expire_workset_NoDup. }
    specialize (H (active_borrows s) (active_borrows s, []) IH).
    by destruct (fold_left _ _ _).
  - by rewrite get_workset_status_ledger.
Qed.

(** ** The theorems at concrete ledgers *)

Lemma reachable_active_lists_nonempty_witness :
  reachable utcfromtimestamp_float ledger_borrowed /\
  od_get (active_borrows ledger_borrowed) "ws1" = Some [bob_borrow] /\
  [bob_borrow] <> [].
Proof.
  assert (Hreach : reachable utcfromtimestamp_float ledger_borrowed).
  { unfold ledger_borrowed, ledger_requested, ledger_ws1.
    do 3 apply reachable_run. apply reachable_init. }
  assert (Hget : od_get (active_borrows ledger_borrowed) "ws1" = Some [bob_borrow]).
  { vm_compute. reflexivity. }
  split; [exact Hreach|]. split; [exact Hget|].
  exact (reachable_active_lists_nonempty utcfromtimestamp_float ledger_borrowed
           "ws1" [bob_borrow] Hreach Hget).
Defined.


Lemma approve_borrow_twice_witness :
  find_request ledger_requested bob_request_id = Some (0%nat, bob_request) /\
  Request.status bob_request = "pending" /\
  (approve_borrow
     (approve_borrow ledger_requested bob_request_id "alice" (t0 + 20) (t0 + 21)).1
     bob_request_id "alice" (t0 + 30) (t0 + 31)).2
  = Returns (failure (request_already "approved")).
Proof.
  assert (Hfind : find_request ledger_requested bob_request_id
                  = Some (0%nat, bob_request)).
  { vm_compute. reflexivity. }
  assert (Hpending : Request.status bob_request = "pending").
  { reflexivity. }
  split; [exact Hfind|]. split; [exact Hpending|].
  exact (proj1 (proj2 (proj2 (approve_borrow_twice ledger_requested bob_request_id
                                0%nat bob_request (t0 + 20) (t0 + 21) (t0 + 30) (t0 + 31)
                                Hfind Hpending)))).
Defined.

Lemma check_expired_borrows_spec_witness :
  NoDup (active_borrows ledger_borrowed).*1 /\
  (check_expired_borrows ledger_borrowed (t0 + 22 + hours 24)).2
  = Returns (expired_entries (t0 + 22 + hours 24) (active_borrows ledger_borrowed)).
Proof.
  assert (Hnd : NoDup (active_borrows ledger_borrowed).*1).
  { vm_compute. apply NoDup_singleton. }
  split; [exact Hnd|].
  pose proof (check_expired_borrows_spec ledger_borrowed (t0 + 22 + hours 24) Hnd) as H.
  destruct (check_expired_borrows ledger_borrowed (t0 + 22 + hours 24)) as [s' out].
  exact (proj1 H).
Defined.

Lemma release_borrowed_nothing_to_release_witness :
  od_get (active_borrows ledger_borrowed) "ws1" = Some [bob_borrow] /\
  release_borrowed ledger_borrowed "ws1" ["e9"] "bob" (t0 + 30)
  = (ledger_borrowed,
     Returns [("success", PBool true);
              ("released_elements", PStrs []);
              ("released_at", PIso (isoformat (t0 + 30)))]).
Proof.
  assert (Hget : od_get (active_borrows ledger_borrowed) "ws1" = Some [bob_borrow]).
  { vm_compute. reflexivity. }
  split; [exact Hget|].
  apply (release_borrowed_nothing_to_release ledger_borrowed "ws1" ["e9"] "bob"
           (t0 + 30) [bob_borrow] Hget).
  - exists bob_borrow. split; [left | reflexivity].
  - intros b e Hb _ He.
    apply list_elem_of_singleton in Hb. subst b.
    intros He9. apply list_elem_of_singleton in He9. subst e.
    vm_compute in He.
    repeat (apply elem_of_cons in He as [He|He]; [discriminate He|]).
    by apply elem_of_nil in He.
Defined.


(** * Further properties of the operations *)

(** ** Borrow requests *)


(** ** What a call can change *)

Lemma approve_borrow_failed s request_id owner_id now1 now2 :
  returns_success (approve_borrow s request_id owner_id now1 now2).2 = false ->
  (approve_borrow s request_id owner_id now1 now2).1 = s.
Proof.
  unfold approve_borrow.
  destruct (find_request s request_id) as [[i r]|]; [|done].
  destruct (negb _); [done|]. destruct (negb _); [done|]. done.
Qed.

(** The whole effect of a successful approval. *)
Lemma approve_borrow_effect s request_id owner_id now1 now2 :
  returns_success (approve_borrow s request_id owner_id now1 now2).2 = true ->
  exists i r,
    find_request s request_id = Some (i, r) /\
    Request.owner r = owner_id /\
    Request.status r = "pending" /\
    let s' := (approve_borrow s request_id owner_id now1 now2).1 in
    let approved_at := isoformat now1 in
    let expires_at := isoformat (now2 + hours (borrow_timeout_hours s)) in
    borrow_requests s' = <[i := approve_request r approved_at expires_at]> (borrow_requests s) /\
    borrow_history s' = borrow_history s ++ [approve_request r approved_at expires_at] /\
    active_borrows s'
    = od_set (active_borrows s) (Request.workset_id r)
        (default [] (od_get (active_borrows s) (Request.workset_id r))
         ++ [approved_borrow r request_id approved_at expires_at]) /\
    workset_owners s' = workset_owners s /\
    workset_metadata s' = workset_metadata s /\
    metadata_objects s' = metadata_objects s /\
    ownership_history s' = ownership_history s /\
    borrow_timeout_hours s' = borrow_timeout_hours s /\
    max_concurrent_borrows s' = max_concurrent_borrows s.
Proof.
  unfold approve_borrow.
  destruct (find_request s request_id) as [[i r]|] eqn:Hfind; [|done].
  destruct (String.eqb_spec (Request.owner r) owner_id) as [Hown|]; [|done].
  destruct (String.eqb_spec (Request.status r) "pending") as [Hst|]; [|done].
  intros _. exists i, r. simpl.
  destruct (od_get (active_borrows s) (Request.workset_id r)) eqn:Hget; simpl.
  - rewrite ?Hget. by split_and!.
  - rewrite ?od_get_set_eq, ?od_set_set. by split_and!.
Qed.

Lemma release_borrowed_rest s workset_id element_ids user_id now :
  set_active_borrows (active_borrows s)
    (release_borrowed s workset_id element_ids user_id now).1 = s.
Proof.
  unfold release_borrowed. destruct s. simpl.
  repeat case_match; done.
Qed.

Lemma check_expired_borrows_rest s current_time :
  set_active_borrows (active_borrows s) (check_expired_borrows s current_time).1 = s.
Proof. unfold check_expired_borrows. destruct s. simpl. by case_match. Qed.

Lemma register_workset_rest s workset_id workset_name owner document_guid kwargs
    now1 now2 now3 :
  let s' := (register_workset s workset_id workset_name owner document_guid kwargs
               now1 now2 now3).1 in
  borrow_requests s' = borrow_requests s /\ borrow_history s' = borrow_history s /\
  ownership_history s `prefix_of` ownership_history s'.
Proof.
  unfold register_workset. repeat case_match; simpl; split_and!;
    try done; try reflexivity; by apply prefix_app_r.
Qed.

Lemma transfer_ownership_rest conv s workset_id from_user to_user timestamp kwargs now :
  let s' := (transfer_ownership conv s workset_id from_user to_user timestamp
               kwargs now).1 in
  borrow_requests s' = borrow_requests s /\ borrow_history s' = borrow_history s /\
  ownership_history s `prefix_of` ownership_history s'.
Proof.
  unfold transfer_ownership. repeat case_match; simpl; split_and!;
    try done; try reflexivity; by apply prefix_app_r.
Qed.

Lemma request_borrow_rest s workset_id element_ids user_id reason now1 now2 :
  set_borrow_requests (borrow_requests s)
    (request_borrow s workset_id element_ids user_id reason now1 now2).1 = s.
Proof. unfold request_borrow. destruct s. simpl. repeat case_match; done. Qed.

(** ** Registration and ownership over any calls *)

Lemma run_keeps_registered conv s c workset_id :
  is_Some (workset_owners s !! workset_id) ->
  is_Some (workset_owners (run conv s c) !! workset_id).
Proof.
  intros Hreg. destruct c; simpl.
  - unfold register_workset. destruct (negb _); [done|].
    destruct workset_id0 as [wid|], workset_name as [wname|], owner as [own|];
      try done.
    simpl. rewrite lookup_insert_is_Some.
    destruct (decide (wid = workset_id)); auto.
  - unfold transfer_ownership. repeat case_match; try done; simpl;
      rewrite lookup_insert_is_Some;
      destruct (decide (workset_id0 = workset_id)); auto.
  - by destruct (request_borrow_owners s workset_id0 element_ids user_id reason
                   now1 now2) as [-> _].
  - by destruct (approve_borrow_owners s request_id owner_id now1 now2) as [-> _].
  - by destruct (release_borrowed_owners s workset_id0 element_ids user_id now)
      as [-> _].
  - by destruct (check_expired_borrows_owners s current_time) as [-> _].
  - by rewrite get_workset_status_ledger.
Qed.

(** X2.  A registered workset stays registered: after any further calls,
    with any arguments, [workset_owners] still has an owner for it. *)
Theorem registration_is_permanent conv s calls workset_id :
  is_Some (workset_owners s !! workset_id) ->
  is_Some (workset_owners (runs conv s calls) !! workset_id).
Proof.
  revert s. induction calls as [|c calls IH]; intros s Hreg; [done|].
  simpl. by apply IH, run_keeps_registered.
Qed.

(** X3.  The recorded owner of a workset changes only through
    [register_workset] or [transfer_ownership] called on that workset: no
    borrow operation, sweep or status query, and no call on another
    workset, changes it. *)
Theorem owner_changes_only_by_register_or_transfer conv s c workset_id :
  workset_owners (run conv s c) !! workset_id <> workset_owners s !! workset_id ->
  (exists workset_name owner document_guid kwargs now1 now2 now3,
     c = Register (Some workset_id) workset_name owner document_guid kwargs
           now1 now2 now3) \/
  (exists from_user to_user timestamp kwargs now,
     c = Transfer workset_id from_user to_user timestamp kwargs now).
Proof.
  intros Hchange. destruct c; simpl in Hchange.
  - left. revert Hchange. unfold register_workset.
    destruct (negb _); [done|].
    destruct workset_id0 as [wid|], workset_name as [wname|], owner as [own|];
      try done.
    simpl. destruct (decide (wid = workset_id)) as [->|Hne].
    + intros _. by eexists _, _, _, _, _, _, _.
    + by rewrite lookup_insert_ne.
  - right. revert Hchange.
    destruct (decide (workset_id0 = workset_id)) as [->|Hne].
    { intros _. by eexists _, _, _, _, _. }
    unfold transfer_ownership. repeat case_match; try done; simpl;
      by rewrite lookup_insert_ne.
  - by destruct (request_borrow_owners s workset_id0 element_ids user_id reason
                   now1 now2) as [Ho _]; rewrite Ho in Hchange.
  - by destruct (approve_borrow_owners s request_id owner_id now1 now2) as [Ho _];
      rewrite Ho in Hchange.
  - by destruct (release_borrowed_owners s workset_id0 element_ids user_id now)
      as [Ho _]; rewrite Ho in Hchange.
  - by destruct (check_expired_borrows_owners s current_time) as [Ho _];
      rewrite Ho in Hchange.
  - by rewrite get_workset_status_ledger in Hchange.
Qed.

(** ** The logs and the request list only grow *)

Lemma filed_approve_request r approved_at expires_at :
  filed (approve_request r approved_at expires_at) = filed r.
Proof. done. Qed.

Lemma approve_borrow_logs s request_id owner_id now1 now2 :
  let s' := (approve_borrow s request_id owner_id now1 now2).1 in
  ownership_history s' = ownership_history s /\
  borrow_history s `prefix_of` borrow_history s' /\
  filed <$> borrow_requests s' = filed <$> borrow_requests s.
Proof.
  simpl.
  destruct (returns_success (approve_borrow s request_id owner_id now1 now2).2) eqn:Hok.
  - apply approve_borrow_effect in Hok
      as (i & r & Hfind & _ & _ & Hreq & Hhist & _ & _ & _ & _ & Hlog & _).
    rewrite Hreq, Hhist, Hlog. split_and!; [done | by apply prefix_app_r |].
    rewrite list_fmap_insert, filed_approve_request.
    apply list_insert_id. rewrite list_lookup_fmap.
    apply list_find_Some in Hfind as (-> & _). done.
  - apply approve_borrow_failed in Hok. by rewrite Hok.
Qed.

Lemma run_logs conv s c :
  ownership_history s `prefix_of` ownership_history (run conv s c) /\
  borrow_history s `prefix_of` borrow_history (run conv s c) /\
  (filed <$> borrow_requests s) `prefix_of` (filed <$> borrow_requests (run conv s c)).
Proof.
  destruct c as [workset_id workset_name owner guid kwargs now1 now2 now3| | | | | |]; simpl.
  - destruct (register_workset_rest s workset_id workset_name owner guid
                kwargs now1 now2 now3) as (-> & -> & ?). done.
  - destruct (transfer_ownership_rest conv s workset_id from_user to_user timestamp
                kwargs now) as (-> & -> & ?). done.
  - unfold request_borrow. repeat case_match; simpl; split_and!; try done.
    rewrite fmap_app. by apply prefix_app_r.
  - destruct (approve_borrow_logs s request_id owner_id now1 now2) as (-> & ? & ->).
    done.
  - pose proof (release_borrowed_rest s workset_id element_ids user_id now) as H.
    rewrite <- H at 1 3 5. done.
  - pose proof (check_expired_borrows_rest s current_time) as H.
    rewrite <- H at 1 3 5. done.
  - by rewrite get_workset_status_ledger.
Qed.

(** X4.  The logs are append-only and requests are never dropped or
    refiled: after any calls, [ownership_history] and [borrow_history]
    extend what they were, and the request list still starts with the same
    requests, each with the id, workset, elements, borrower, owner snapshot,
    reason and request time it was filed with. *)
Theorem logs_and_requests_only_grow conv s calls :
  ownership_history s `prefix_of` ownership_history (runs conv s calls) /\
  borrow_history s `prefix_of` borrow_history (runs conv s calls) /\
  (filed <$> borrow_requests s)
    `prefix_of` (filed <$> borrow_requests (runs conv s calls)).
Proof.
  revert s. induction calls as [|c calls IH]; intros s; [done|].
  simpl. destruct (run_logs conv s c) as (H1 & H2 & H3).
  destruct (IH (run conv s c)) as (H1' & H2' & H3').
  split_and!; by etrans.
Qed.

(** ** Requests and active borrows of a reachable ledger *)

Lemma od_set_elem_of {V} (d : list (string * V)) k v item :
  item ∈ od_set d k v -> item ∈ d \/ item = (k, v).
Proof.
  induction d as [|[k' v'] d IH]; simpl.
  - intros ->%list_elem_of_singleton. by right.
  - destruct (decide (k' = k)) as [->|Hne].
    + intros [->|?]%elem_of_cons; [by right | left; by right].
    + intros [->|Hin]%elem_of_cons; [left; left|].
      destruct (IH Hin); [left; by right | by right].
Qed.

Lemma od_del_elem_of {V} (d : list (string * V)) k item :
  item ∈ od_del d k -> item ∈ d.
Proof. intros H. eapply elem_of_sublist; [exact H | apply od_del_sublist]. Qed.

Lemma list_remove_sublist x l : sublist (list_remove x l) l.
Proof.
  induction l as [|y l IH]; simpl; [done|].
  destruct (decide (y = x)); [by apply sublist_cons | by apply sublist_skip].
Qed.

Lemma list_assign_elem_of x x' l y :
  y ∈ list_assign x x' l -> y ∈ l \/ y = x'.
Proof.
  induction l as [|z l IH]; simpl; [by left|].
  destruct (decide (z = x)).
  - intros [->|?]%elem_of_cons; [by right | left; by right].
  - intros [->|Hin]%elem_of_cons; [left; left|].
    destruct (IH Hin); [left; by right | by right].
Qed.

Lemma list_assign_ids x x' l :
  Borrow.request_id x' = Borrow.request_id x ->
  Borrow.request_id <$> list_assign x x' l = Borrow.request_id <$> l.
Proof.
  intros Hid. induction l as [|z l IH]; csimpl; [done|].
  destruct (decide (z = x)) as [->|]; csimpl; [by rewrite Hid | by rewrite IH].
Qed.

Lemma shrinks_refl b : shrinks b b.
Proof. by split_and!. Qed.

(** What the loop of [release_borrowed] leaves in the list: borrows that
    were there, some of them shrunk, in an order that keeps the request ids
    in place. *)
Lemma release_loop_shrinks element_ids user_borrows original borrows released :
  (forall b, b ∈ user_borrows -> b ∈ original) ->
  (forall b', b' ∈ borrows -> exists b, b ∈ original /\ shrinks b' b) ->
  sublist (Borrow.request_id <$> borrows) (Borrow.request_id <$> original) ->
  let result := fold_left (release_step element_ids) user_borrows (borrows, released) in
  (forall b', b' ∈ result.1 -> exists b, b ∈ original /\ shrinks b' b) /\
  sublist (Borrow.request_id <$> result.1) (Borrow.request_id <$> original).
Proof.
  revert borrows released.
  induction user_borrows as [|x user_borrows IH]; intros borrows released Huser Hinv Hids.
  { simpl. done. }
  cbn [fold_left]. unfold release_step at 2 4.
  destruct (_ <? _)%nat.
  2: { apply IH; [|done..]. intros b Hb. apply Huser. by right. }
  destruct (filter _ (Borrow.element_ids x)) as [|e remaining] eqn:Hrem.
  - apply IH.
    + intros b Hb. apply Huser. by right.
    + intros b' Hb'. apply Hinv. eapply elem_of_sublist; [exact Hb'|].
      apply list_remove_sublist.
    + etrans; [|exact Hids]. apply (fmap_sublist Borrow.request_id).
      apply list_remove_sublist.
  - apply IH.
    + intros b Hb. apply Huser. by right.
    + intros b' [Hb'| ->]%list_assign_elem_of; [by apply Hinv|].
      exists x. split; [apply Huser; left|].
      unfold shrinks. simpl. split_and!; try done.
      rewrite <- Hrem. intros y Hy. by apply list_elem_of_filter in Hy as [_ ?].
    + by rewrite list_assign_ids.
Qed.

Lemma list_find_insert_other {A} (P : A -> Prop) `{!forall x, Decision (P x)}
    (l : list A) i x y :
  l !! i = Some y -> ~ P y -> ~ P x -> list_find P (<[i := x]> l) = list_find P l.
Proof.
  revert i. induction l as [|z l IH]; intros [|i] Hi Hy Hx; simplify_eq/=; try done.
  - by rewrite !decide_False.
  - destruct (decide (P z)); [done|]. by rewrite IH.
Qed.

Lemma elem_of_concat {A} (x : A) (ls : list (list A)) :
  x ∈ concat ls <-> exists l, x ∈ l /\ l ∈ ls.
Proof.
  induction ls as [|l ls IH]; simpl.
  - split; [by intros ?%elem_of_nil | by intros (? & _ & ?%elem_of_nil)].
  - rewrite elem_of_app, IH. split.
    + intros [?|(l' & ? & ?)]; [exists l | exists l']; split; try done;
        [left | by right].
    + intros (l' & Hx & [->|?]%elem_of_cons); [by left | right; by exists l'].
Qed.

Lemma elem_of_all_borrows s b :
  b ∈ all_borrows s <->
  exists workset_id borrows, (workset_id, borrows) ∈ active_borrows s /\ b ∈ borrows.
Proof.
  unfold all_borrows, od_values. rewrite elem_of_concat. split.
  - intros (l & Hb & Hl). apply list_elem_of_fmap in Hl as ([k l'] & -> & Hin).
    by exists k, l'.
  - intros (k & l & Hin & Hb). exists l. split; [done|].
    apply list_elem_of_fmap. by exists (k, l).
Qed.

Lemma od_set_values_sublist {B} (f : Borrow.t -> B) (d : list (string * list Borrow.t))
    k l l' :
  od_get d k = Some l ->
  sublist (f <$> l') (f <$> l) ->
  sublist (f <$> concat (od_values (od_set d k l'))) (f <$> concat (od_values d)).
Proof.
  unfold od_values. intros Hget Hsub.
  induction d as [|[k0 l0] d IH]; simpl in *; [done|].
  destruct (decide (k0 = k)) as [->|Hne]; simplify_eq; simpl;
    rewrite !fmap_app; apply sublist_app; auto.
Qed.

Lemma od_del_values_sublist (d : list (string * list Borrow.t)) k :
  sublist (concat (od_values (od_del d k))) (concat (od_values d)).
Proof.
  unfold od_values. induction d as [|[k0 l0] d IH]; simpl; [done|].
  destruct (decide (k0 = k)); simpl.
  - by apply sublist_inserts_l.
  - by apply sublist_app.
Qed.

Lemma od_set_values_snoc (d : list (string * list Borrow.t)) k b :
  concat (od_values (od_set d k (default [] (od_get d k) ++ [b])))
  ≡ₚ concat (od_values d) ++ [b].
Proof.
  unfold od_values. induction d as [|[k0 l0] d IH]; simpl; [done|].
  destruct (decide (k0 = k)) as [->|Hne]; simpl.
  - rewrite <- !app_assoc. f_equiv. apply Permutation_app_comm.
  - rewrite IH. by rewrite app_assoc.
Qed.

Lemma swept_values_sublist current_time (d : list (string * list Borrow.t)) :
  sublist (concat (od_values (swept current_time d))) (concat (od_values d)).
Proof.
  unfold od_values, swept. induction d as [|[k l] d IH]; simpl; [done|].
  pose proof (sublist_filter (fun b => ~ expired current_time b) l) as Hf.
  destruct (filter _ l) as [|b l']; simpl.
  - by apply sublist_inserts_l.
  - by apply (sublist_app (b :: l')).
Qed.

Lemma swept_elem_of current_time (d : list (string * list Borrow.t)) k l' :
  (k, l') ∈ swept current_time d ->
  exists l, (k, l) ∈ d /\ l' = filter (fun b => ~ expired current_time b) l.
Proof.
  intros Hin. apply list_elem_of_omap in Hin as ([k0 l] & Hin & Hitem).
  simpl in Hitem. exists l.
  destruct (filter _ l) as [|b l'']; [done|]. by simplify_eq.
Qed.

Lemma borrow_of_request_shrinks b' b r :
  shrinks b' b -> borrow_of_request b r -> borrow_of_request b' r.
Proof.
  intros (Hid & Hb & Hat & Hex & Hel) (? & ? & ? & ? & ? & ?).
  unfold borrow_of_request. rewrite Hid, Hb, Hat, Hex. split_and!; try done.
  by etrans.
Qed.

Lemma borrows_inv_more_requests s s' added :
  active_borrows s' = active_borrows s ->
  borrow_requests s' = borrow_requests s ++ added ->
  borrows_inv s -> borrows_inv s'.
Proof.
  unfold borrows_inv, borrows_backed, active_ids, all_borrows, find_request.
  intros -> -> [Hbacked Hnd]. split; [|done].
  intros k l b Hin Hb. destruct (Hbacked k l b Hin Hb) as (i & r & Hfind & ?).
  exists i, r. split; [|done]. by apply list_find_app_l.
Qed.

Lemma borrows_inv_fewer_borrows s s' :
  borrow_requests s' = borrow_requests s ->
  (forall k l' b', (k, l') ∈ active_borrows s' -> b' ∈ l' ->
     exists l b, (k, l) ∈ active_borrows s /\ b ∈ l /\ shrinks b' b) ->
  sublist (active_ids s') (active_ids s) ->
  borrows_inv s -> borrows_inv s'.
Proof.
  unfold borrows_inv, borrows_backed, find_request.
  intros -> Hfrom Hsub [Hbacked Hnd]. split.
  - intros k l' b' Hin Hb'. destruct (Hfrom k l' b' Hin Hb') as (l & b & Hl & Hb & Hsh).
    destruct (Hbacked k l b Hl Hb) as (i & r & Hfind & Hk & Hof).
    exists i, r. destruct Hsh as (Hid & Hrest). rewrite Hid.
    split_and!; try done.
    eapply borrow_of_request_shrinks; [|exact Hof]. by split.
  - by eapply sublist_NoDup.
Qed.

Lemma release_borrowed_borrows_inv s workset_id element_ids user_id now :
  borrows_inv s ->
  borrows_inv (release_borrowed s workset_id element_ids user_id now).1.
Proof.
  intros Hinv. unfold release_borrowed.
  destruct (od_get (active_borrows s) workset_id) as [borrows|] eqn:Hget; [|done].
  destruct (filter _ borrows) as [|b0 user_borrows] eqn:Hfilter; [done|].
  pose proof (release_loop_shrinks element_ids (b0 :: user_borrows) borrows borrows [])
    as Hloop.
  destruct (fold_left _ _ _) as [borrows' released] eqn:Hfold.
  destruct Hloop as [Hshrink Hsub].
  { intros b Hb. rewrite <- Hfilter in Hb. by apply list_elem_of_filter in Hb as [_ ?]. }
  { intros b Hb. exists b. split; [done | apply shrinks_refl]. }
  { done. }
  simpl in Hshrink, Hsub.
  assert (Hset : forall k l' b',
            (k, l') ∈ od_set (active_borrows s) workset_id borrows' -> b' ∈ l' ->
            exists l b, (k, l) ∈ active_borrows s /\ b ∈ l /\ shrinks b' b).
  { intros k l' b' [Hin|[= -> ->]]%od_set_elem_of Hb'.
    - exists l', b'. split_and!; [done.. | apply shrinks_refl].
    - destruct (Hshrink b' Hb') as (b & Hb & Hsh). exists borrows, b.
      split_and!; try done. by apply od_get_elem_of. }
  assert (Hids : sublist
            (Borrow.request_id <$>
               concat (od_values (od_set (active_borrows s) workset_id borrows')))
            (active_ids s)).
  { by apply od_set_values_sublist with borrows. }
  apply borrows_inv_fewer_borrows with s; [| | |done].
  - by destruct borrows'.
  - destruct borrows'; simpl; [|done].
    intros k l' b' Hin%od_del_elem_of. by apply Hset.
  - destruct borrows'; simpl; [|done].
    etrans; [|exact Hids]. apply (fmap_sublist Borrow.request_id).
    apply od_del_values_sublist.
Qed.

Lemma check_expired_borrows_borrows_inv s current_time :
  NoDup (active_borrows s).*1 ->
  borrows_inv s ->
  borrows_inv (check_expired_borrows s current_time).1.
Proof.
  intros Hnd Hinv. rewrite check_expired_borrows_swept by done. simpl.
  apply borrows_inv_fewer_borrows with s; [done | | | done]; simpl.
  - intros k l' b' (l & Hl & ->)%swept_elem_of Hb'.
    apply list_elem_of_filter in Hb' as [_ Hb'].
    exists l, b'. split_and!; [done.. | apply shrinks_refl].
  - apply (fmap_sublist Borrow.request_id), swept_values_sublist.
Qed.

Lemma approve_borrow_borrows_inv s request_id owner_id now1 now2 :
  borrows_inv s ->
  borrows_inv (approve_borrow s request_id owner_id now1 now2).1.
Proof.
  intros [Hbacked Hnd].
  destruct (returns_success (approve_borrow s request_id owner_id now1 now2).2) eqn:Hok.
  2: { apply approve_borrow_failed in Hok. by rewrite Hok. }
  apply approve_borrow_effect in Hok
    as (i & r & Hfind & _ & Hpending & Hreq & _ & Hact & _).
  set (s' := (approve_borrow s request_id owner_id now1 now2).1) in *.
  set (r' := approve_request r _ _) in *.
  set (b_new := approved_borrow r request_id _ _) in *.
  pose proof Hfind as (Hi & Hid & _)%list_find_Some.
  assert (Hfresh : forall k l b, (k, l) ∈ active_borrows s -> b ∈ l ->
            Borrow.request_id b <> request_id).
  { intros k l b Hl Hb Heq.
    destruct (Hbacked k l b Hl Hb) as (j & rb & Hfind' & _ & Hst & _).
    rewrite Heq, Hfind in Hfind'. simplify_eq. by rewrite Hpending in Hst. }
  assert (Hold : forall k l b, (k, l) ∈ active_borrows s -> b ∈ l ->
            exists j rb, find_request s' (Borrow.request_id b) = Some (j, rb) /\
                         Request.workset_id rb = k /\ borrow_of_request b rb).
  { intros k l b Hl Hb.
    destruct (Hbacked k l b Hl Hb) as (j & rb & Hfind' & ?).
    exists j, rb. split; [|done]. unfold find_request. rewrite Hreq.
    rewrite list_find_insert_other with (y := r); [done.. | |].
    - rewrite Hid. intros Heq. by apply (Hfresh k l b).
    - simpl. rewrite Hid. intros Heq. by apply (Hfresh k l b). }
  split.
  - intros k l b Hl Hb. rewrite Hact in Hl.
    apply od_set_elem_of in Hl as [Hl|[= -> ->]]; [by eapply Hold|].
    apply elem_of_app in Hb as [Hb| ->%list_elem_of_singleton].
    + destruct (od_get (active_borrows s) (Request.workset_id r)) as [l0|] eqn:Hget;
        [|by apply elem_of_nil in Hb].
      eapply Hold; [|exact Hb]. by apply od_get_elem_of.
    + exists i, r'. split_and!.
      * unfold find_request. rewrite Hreq. by eapply find_request_update.
      * done.
      * unfold borrow_of_request. by split_and!.
  - unfold active_ids, all_borrows. rewrite Hact, od_set_values_snoc, fmap_app.
    apply NoDup_app. split_and!; [done | | apply NoDup_singleton].
    intros x Hx ->%list_elem_of_singleton.
    apply list_elem_of_fmap in Hx as (b & Hxid & Hb).
    apply elem_of_all_borrows in Hb as (k & l & Hl & Hb).
    by apply (Hfresh k l b).
Qed.

Lemma run_borrows_inv conv s c :
  NoDup (active_borrows s).*1 -> borrows_inv s -> borrows_inv (run conv s c).
Proof.
  intros Hnd Hinv. destruct c; simpl.
  - apply borrows_inv_more_requests with s []; [| |done].
    + apply register_workset_active.
    + rewrite app_nil_r. apply register_workset_rest.
  - apply borrows_inv_more_requests with s []; [| |done].
    + apply transfer_ownership_active.
    + rewrite app_nil_r. apply transfer_ownership_requests.
  - unfold request_borrow. repeat case_match; try done.
    eapply (borrows_inv_more_requests s); [done | simpl; reflexivity | done].
  - by apply approve_borrow_borrows_inv.
  - by apply release_borrowed_borrows_inv.
  - by apply check_expired_borrows_borrows_inv.
  - by rewrite get_workset_status_ledger.
Qed.

Lemma reachable_borrows_inv conv s : reachable conv s -> borrows_inv s.
Proof.
  induction 1 as [|s c Hs IH].
  - split; [|constructor]. intros k l b Hin. by apply elem_of_nil in Hin.
  - apply run_borrows_inv; [|done]. by apply reachable_active_keys_NoDup with conv.
Qed.

(** X5.  On a reachable ledger every active borrow is backed by the request
    its [request_id] resolves to: that request is approved, was filed for
    the same workset by the same borrower, carries the borrow's approval
    and expiry stamps, and lists every element the borrow still holds. *)
Theorem reachable_borrow_backed_by_request conv s workset_id borrows b :
  reachable conv s ->
  od_get (active_borrows s) workset_id = Some borrows ->
  b ∈ borrows ->
  exists i r,
    find_request s (Borrow.request_id b) = Some (i, r) /\
    Request.workset_id r = workset_id /\
    Request.status r = "approved" /\
    Request.borrower r = Borrow.borrower b /\
    Request.approved_at r = Some (Borrow.borrowed_at b) /\
    Request.expires_at r = Some (Borrow.expires_at b) /\
    Borrow.element_ids b ⊆ Request.element_ids r.
Proof.
  intros Hs Hget Hb. destruct (reachable_borrows_inv conv s Hs) as [Hbacked _].
  destruct (Hbacked workset_id borrows b (od_get_elem_of _ _ _ Hget) Hb)
    as (i & r & Hfind & Hk & Hst & _ & Hbor & Hat & Hex & Hel).
  exists i, r. by split_and!.
Qed.

(** X6.  On a reachable ledger no two active borrows, on the same workset
    or on different ones, carry the same [request_id]: a request is turned
    into an active borrow at most once. *)
Theorem reachable_active_request_ids_distinct conv s :
  reachable conv s -> NoDup (Borrow.request_id <$> all_borrows s).
Proof. intros Hs. by destruct (reachable_borrows_inv conv s Hs) as [_ ?]. Qed.

Lemma request_ok_approve r approved_at expires_at :
  request_ok r -> request_ok (approve_request r approved_at expires_at).
Proof. intros [Hne _]. split; [done|]. right. simpl. eauto. Qed.

Lemma run_requests_ok conv s c :
  Forall request_ok (borrow_requests s) ->
  Forall (fun r => Request.status r = "approved" /\ request_ok r) (borrow_history s) ->
  Forall request_ok (borrow_requests (run conv s c)) /\
  Forall (fun r => Request.status r = "approved" /\ request_ok r)
         (borrow_history (run conv s c)).
Proof.
  intros Hreq Hhist. destruct c as [workset_id workset_name owner guid kwargs now1 now2 now3| | | | | |]; simpl.
  - by destruct (register_workset_rest s workset_id workset_name owner guid
                   kwargs now1 now2 now3) as (-> & -> & _).
  - by destruct (transfer_ownership_rest conv s workset_id from_user to_user timestamp
                   kwargs now) as (-> & -> & _).
  - unfold request_borrow.
    destruct (workset_owners s !! workset_id) as [current|]; [|done].
    destruct (String.eqb_spec current user_id) as [|Hne]; [done|].
    destruct (_ >=? _); [done|]. simpl. split; [|done].
    apply Forall_app. split; [done|]. constructor; [|done].
    split; [simpl; congruence|]. left. by split_and!.
  - destruct (returns_success (approve_borrow s request_id owner_id now1 now2).2)
      eqn:Hok.
    + apply approve_borrow_effect in Hok
        as (i & r & Hfind & _ & _ & -> & -> & _).
      apply list_find_Some in Hfind as (Hi & _).
      assert (Hr : request_ok r).
      { rewrite Forall_forall in Hreq. apply Hreq. by eapply list_elem_of_lookup_2. }
      split.
      * apply Forall_insert; [done|]. by apply request_ok_approve.
      * apply Forall_app. split; [done|]. constructor; [|done].
        split; [done|]. by apply request_ok_approve.
    + apply approve_borrow_failed in Hok. by rewrite Hok.
  - pose proof (release_borrowed_rest s workset_id element_ids user_id now) as H.
    rewrite <- H in Hreq, Hhist. done.
  - pose proof (check_expired_borrows_rest s current_time) as H.
    rewrite <- H in Hreq, Hhist. done.
  - by rewrite get_workset_status_ledger.
Qed.

(** X7.  On a reachable ledger every stored request was filed by someone
    other than the owner it records, and is either pending with no approval
    or expiry stamp, or approved with both; no other status occurs.  Every
    entry of [borrow_history] is such a request in the approved state. *)
Theorem reachable_requests_well_formed conv s :
  reachable conv s ->
  Forall request_ok (borrow_requests s) /\
  Forall (fun r => Request.status r = "approved" /\ request_ok r) (borrow_history s).
Proof.
  induction 1 as [|s c Hs [IH1 IH2]]; [by split; constructor|].
  by apply run_requests_ok.
Qed.

(** ** Colliding request ids *)

Lemma run_keeps_shadowed conv s c i j r' :
  (i < j)%nat ->
  (exists r, borrow_requests s !! i = Some r /\
             Request.request_id r = Request.request_id r') ->
  borrow_requests s !! j = Some r' ->
  (exists r, borrow_requests (run conv s c) !! i = Some r /\
             Request.request_id r = Request.request_id r') /\
  borrow_requests (run conv s c) !! j = Some r'.
Proof.
  intros Hij (r & Hi & Hid) Hj. destruct c as [workset_id workset_name owner guid kwargs now1 now2 now3| | | | | |]; simpl.
  - destruct (register_workset_rest s workset_id workset_name owner guid
                kwargs now1 now2 now3) as (-> & _). eauto.
  - rewrite transfer_ownership_requests. eauto.
  - unfold request_borrow. repeat case_match; simpl; eauto.
    split; [exists r; split; [|done]|]; by apply lookup_app_l_Some.
  - destruct (returns_success (approve_borrow s request_id owner_id now1 now2).2)
      eqn:Hok.
    2: { apply approve_borrow_failed in Hok. rewrite Hok. eauto. }
    apply approve_borrow_effect in Hok as (k & rk & Hfind & _ & _ & -> & _).
    apply list_find_Some in Hfind as (Hk & Hkid & Hleast).
    assert (k <> j).
    { intros ->. simplify_eq. apply (Hleast i r Hi Hij). congruence. }
    split; [|by rewrite list_lookup_insert_ne].
    destruct (decide (k = i)) as [->|Hne].
    + simplify_eq.
      exists (approve_request r (isoformat now1)
                (isoformat (now2 + hours (borrow_timeout_hours s)))).
      split; [|done]. apply list_lookup_insert_eq. by eapply lookup_lt_Some.
    + exists r. by rewrite list_lookup_insert_ne.
  - pose proof (release_borrowed_rest s workset_id element_ids user_id now) as H.
    apply (f_equal borrow_requests) in H. simpl in H. rewrite H. eauto.
  - pose proof (check_expired_borrows_rest s current_time) as H.
    apply (f_equal borrow_requests) in H. simpl in H. rewrite H. eauto.
  - rewrite get_workset_status_ledger. eauto.
Qed.

(** X8.  Request ids are not checked for collisions.  A request stored
    behind an earlier request with the same id is out of reach: whatever
    calls follow, it stays exactly as it was filed, so it is never approved
    ([approve_borrow] always resolves the id to the earlier request). *)
Theorem shadowed_request_never_changes conv s calls i j r r' :
  (i < j)%nat ->
  borrow_requests s !! i = Some r ->
  borrow_requests s !! j = Some r' ->
  Request.request_id r = Request.request_id r' ->
  borrow_requests (runs conv s calls) !! j = Some r'.
Proof.
  intros Hij Hi Hj Hid.
  assert (H : forall s,
            (exists r, borrow_requests s !! i = Some r /\
                       Request.request_id r = Request.request_id r') ->
            borrow_requests s !! j = Some r' ->
            borrow_requests (runs conv s calls) !! j = Some r').
  { clear s r Hi Hj Hid.
    induction calls as [|c calls IH]; intros s Hi Hj; [done|].
    simpl. destruct (run_keeps_shadowed conv s c i j r') as [Hi' Hj']; auto. }
  apply H; eauto.
Qed.

(** ** Sweeping again, and sweeping after an approval *)

Lemma swept_keys_sublist current_time (d : list (string * list Borrow.t)) :
  sublist (swept current_time d).*1 d.*1.
Proof.
  unfold swept. induction d as [|[k l] d IH]; simpl; [done|].
  destruct (filter _ l); simpl; [by apply sublist_cons | by apply sublist_skip].
Qed.

Lemma swept_NoDup current_time (d : list (string * list Borrow.t)) :
  NoDup d.*1 -> NoDup (swept current_time d).*1.
Proof. intros H. eapply sublist_NoDup; [exact H | apply swept_keys_sublist]. Qed.

Lemma filter_all {A} (P : A -> Prop) `{!forall x, Decision (P x)} (l : list A) :
  Forall P l -> filter P l = l.
Proof.
  induction 1 as [|x l Hx Hl IH]; [done|].
  by rewrite filter_cons_True, IH.
Qed.

Lemma filter_none {A} (P : A -> Prop) `{!forall x, Decision (P x)} (l : list A) :
  Forall (fun x => ~ P x) l -> filter P l = [].
Proof.
  induction 1 as [|x l Hx Hl IH]; [done|].
  by rewrite filter_cons_False.
Qed.

Lemma swept_cons current_time k l (d : list (string * list Borrow.t)) :
  swept current_time ((k, l) :: d)
  = match filter (fun b => ~ expired current_time b) l with
    | [] => swept current_time d
    | b :: l' => (k, b :: l') :: swept current_time d
    end.
Proof. unfold swept. simpl. by destruct (filter _ l). Qed.

Lemma expired_entries_cons current_time k l (d : list (string * list Borrow.t)) :
  expired_entries current_time ((k, l) :: d)
  = (expired_entry k <$> filter (expired current_time) l)
    ++ expired_entries current_time d.
Proof. done. Qed.

(** A table with no empty list and nothing expired is left alone. *)
Lemma swept_nothing_expired current_time (d : list (string * list Borrow.t)) :
  Forall (fun item => item.2 <> [] /\
                      Forall (fun b => ~ expired current_time b) item.2) d ->
  swept current_time d = d /\ expired_entries current_time d = [].
Proof.
  induction 1 as [|[k l] d [Hne Hl] Hd [IH1 IH2]]; [done|]. simpl in Hne, Hl.
  rewrite swept_cons, expired_entries_cons.
  rewrite (filter_all _ l Hl), (filter_none (expired current_time) l Hl).
  destruct l; [done|]. by rewrite IH1, IH2.
Qed.

Lemma swept_is_clean current_time current_time' (d : list (string * list Borrow.t)) :
  current_time' <= current_time ->
  Forall (fun item => item.2 <> [] /\
                      Forall (fun b => ~ expired current_time' b) item.2)
         (swept current_time d).
Proof.
  intros Hle. induction d as [|[k l] d IH]; [done|].
  rewrite swept_cons.
  destruct (filter _ l) as [|b l'] eqn:Hf; [done|].
  constructor; [|done]. simpl. split; [done|]. rewrite <- Hf.
  apply Forall_forall. intros x [Hx _]%list_elem_of_filter.
  unfold expired in *. lia.
Qed.

(** X9.  The expiry sweep is idempotent: a second sweep at the same clock
    reading, or at an earlier one, reports nothing and leaves the ledger as
    the first sweep left it. *)
Theorem check_expired_borrows_idempotent s current_time current_time' :
  NoDup (active_borrows s).*1 ->
  current_time' <= current_time ->
  check_expired_borrows (check_expired_borrows s current_time).1 current_time'
  = ((check_expired_borrows s current_time).1, Returns []).
Proof.
  intros Hnd Hle. rewrite (check_expired_borrows_swept s) by done. simpl.
  rewrite check_expired_borrows_swept by (by apply swept_NoDup). simpl.
  destruct (swept_nothing_expired current_time' (swept current_time (active_borrows s)))
    as [-> ->]; [by apply swept_is_clean|].
  done.
Qed.

Lemma swept_keeps current_time (d : list (string * list Borrow.t)) k l b :
  NoDup d.*1 ->
  od_get d k = Some l -> b ∈ l -> ~ expired current_time b ->
  exists l', od_get (swept current_time d) k = Some l' /\ b ∈ l'.
Proof.
  intros Hnd Hget Hb Hlive.
  assert (Hin : b ∈ filter (fun b => ~ expired current_time b) l)
    by (by apply list_elem_of_filter).
  exists (filter (fun b => ~ expired current_time b) l). split; [|done].
  apply od_elem_of_get; [by apply swept_NoDup|].
  apply list_elem_of_omap. exists (k, l). split; [by apply od_get_elem_of|].
  simpl. destruct (filter _ l); [by apply elem_of_nil in Hin | done].
Qed.

(** X10.  A borrow is reclaimed by the sweep exactly when its deadline has
    passed.  After a successful [approve_borrow] whose expiry is counted
    from the clock reading [now2], a sweep at any time up to
    [now2 + borrow_timeout_hours] keeps the new borrow in its workset's list
    and does not report it; a sweep at any later time reports it and leaves
    it in no list of that workset. *)
Theorem approved_borrow_expires_at_deadline s request_id owner_id now1 now2 current_time :
  NoDup (active_borrows s).*1 ->
  returns_success (approve_borrow s request_id owner_id now1 now2).2 = true ->
  exists i r,
    find_request s request_id = Some (i, r) /\
    let s1 := (approve_borrow s request_id owner_id now1 now2).1 in
    let deadline := now2 + hours (borrow_timeout_hours s) in
    let b := approved_borrow r request_id (isoformat now1) (isoformat deadline) in
    let sweep := check_expired_borrows s1 current_time in
    (current_time <= deadline ->
       (exists l, od_get (active_borrows sweep.1) (Request.workset_id r) = Some l /\ b ∈ l) /\
       forall entries, sweep.2 = Returns entries ->
                       expired_entry (Request.workset_id r) b ∉ entries) /\
    (deadline < current_time ->
       (forall l, od_get (active_borrows sweep.1) (Request.workset_id r) = Some l -> b ∉ l) /\
       exists entries, sweep.2 = Returns entries /\
                       expired_entry (Request.workset_id r) b ∈ entries).
Proof.
  intros Hnd Hok.
  apply approve_borrow_effect in Hok as (i & r & Hfind & _ & _ & _ & _ & Hact & _).
  exists i, r. split; [done|]. simpl.
  set (s1 := (approve_borrow s request_id owner_id now1 now2).1) in *.
  set (deadline := now2 + hours (borrow_timeout_hours s)) in *.
  set (b := approved_borrow r request_id (isoformat now1) (isoformat deadline)) in *.
  assert (Hnd1 : NoDup (active_borrows s1).*1) by (rewrite Hact; by apply od_set_NoDup).
  assert (Hget : exists l, od_get (active_borrows s1) (Request.workset_id r) = Some l /\
                           b ∈ l).
  { eexists. rewrite Hact, od_get_set_eq. split; [done|].
    apply elem_of_app. right. left. }
  destruct Hget as (l & Hget & Hb).
  rewrite (check_expired_borrows_swept s1) by done. simpl. split.
  - intros Hle. assert (Hlive : ~ expired current_time b).
    { unfold expired, b. simpl. lia. }
    split; [by eapply swept_keeps|].
    intros entries [= <-] Hin.
    apply expired_entries_elem_of in Hin as (k & l' & b' & _ & _ & Hexp & Heq).
    unfold expired_entry in Heq. simplify_eq.
    unfold expired, fromisoformat in *. simpl in *. lia.
  - intros Hlt. assert (Hdead : expired current_time b).
    { unfold expired, b. simpl. lia. }
    split.
    + intros l' Hl'. apply swept_lookup in Hl' as (l0 & _ & ->); [|done].
      intros [Hlive _]%list_elem_of_filter. done.
    + eexists. split; [done|]. apply expired_entries_elem_of.
      exists (Request.workset_id r), l, b. split_and!; try done.
      by apply od_get_elem_of.
Qed.

(** ** What a release hands back and what it leaves *)

Lemma filter_complement_length {A} (P : A -> Prop) `{!forall x, Decision (P x)}
    (l : list A) :
  (length (filter P l) + length (filter (fun x => ~ P x) l) = length l)%nat.
Proof.
  induction l as [|x l IH]; [done|].
  destruct (decide (P x)).
  - rewrite filter_cons_True, (filter_cons_False (fun x => ~ P x)) by auto.
    simpl. lia.
  - rewrite filter_cons_False, (filter_cons_True (fun x => ~ P x)) by auto.
    simpl. lia.
Qed.

(** The second component of the loop: the released elements. *)
Lemma release_step_released element_ids borrows released b :
  (release_step element_ids (borrows, released) b).2
  = released ++ filter (fun e => e ∈ element_ids) (Borrow.element_ids b).
Proof.
  unfold release_step.
  pose proof (filter_complement_length (fun e => e ∈ element_ids) (Borrow.element_ids b))
    as Hlen.
  destruct (Nat.ltb_spec
              (length (filter (fun e => e ∉ element_ids) (Borrow.element_ids b)))
              (length (Borrow.element_ids b))) as [Hlt|Hge].
  - by destruct (filter (fun e => e ∉ element_ids) _).
  - simpl. destruct (filter (fun e => e ∈ element_ids) _); [by rewrite app_nil_r|].
    simpl in Hlen. unfold not in *. lia.
Qed.

Lemma release_loop_released element_ids user_borrows borrows released :
  (fold_left (release_step element_ids) user_borrows (borrows, released)).2
  = released ++ released_elements element_ids user_borrows.
Proof.
  revert borrows released.
  induction user_borrows as [|b user_borrows IH]; intros borrows released.
  { simpl. by rewrite app_nil_r. }
  cbn [fold_left].
  destruct (release_step element_ids (borrows, released) b) as [borrows' released']
    eqn:Hstep.
  rewrite IH. apply (f_equal snd) in Hstep. rewrite release_step_released in Hstep.
  simpl in Hstep. subst released'. unfold released_elements. simpl.
  by rewrite <- app_assoc.
Qed.

Lemma list_remove_others user_id x l :
  Borrow.borrower x = user_id ->
  filter (fun b => Borrow.borrower b <> user_id) (list_remove x l)
  = filter (fun b => Borrow.borrower b <> user_id) l.
Proof.
  intros Hx. induction l as [|y l IH]; simpl; [done|].
  destruct (decide (y = x)) as [->|Hne].
  - by rewrite filter_cons_False by auto.
  - destruct (decide (Borrow.borrower y <> user_id)).
    + by rewrite !filter_cons_True, IH by done.
    + by rewrite !filter_cons_False, IH by done.
Qed.

Lemma list_assign_others user_id x x' l :
  Borrow.borrower x = user_id -> Borrow.borrower x' = user_id ->
  filter (fun b => Borrow.borrower b <> user_id) (list_assign x x' l)
  = filter (fun b => Borrow.borrower b <> user_id) l.
Proof.
  intros Hx Hx'. induction l as [|y l IH]; simpl; [done|].
  destruct (decide (y = x)) as [->|Hne].
  - by rewrite !filter_cons_False by auto.
  - destruct (decide (Borrow.borrower y <> user_id)).
    + by rewrite !filter_cons_True, IH by done.
    + by rewrite !filter_cons_False, IH by done.
Qed.

Lemma release_loop_others element_ids user_id user_borrows borrows released :
  Forall (fun b => Borrow.borrower b = user_id) user_borrows ->
  filter (fun b => Borrow.borrower b <> user_id)
         (fold_left (release_step element_ids) user_borrows (borrows, released)).1
  = filter (fun b => Borrow.borrower b <> user_id) borrows.
Proof.
  intros Huser. revert borrows released.
  induction Huser as [|x user_borrows Hx Huser IH]; intros borrows released; [done|].
  cbn [fold_left]. unfold release_step at 2.
  destruct (_ <? _)%nat; [|apply IH].
  destruct (filter _ (Borrow.element_ids x)).
  - rewrite IH. by apply list_remove_others.
  - rewrite IH. by apply list_assign_others.
Qed.

Lemma release_borrowed_table s workset_id element_ids user_id now borrows :
  od_get (active_borrows s) workset_id = Some borrows ->
  filter (fun b => Borrow.borrower b = user_id) borrows <> [] ->
  let loop := fold_left (release_step element_ids)
                (filter (fun b => Borrow.borrower b = user_id) borrows) (borrows, []) in
  (release_borrowed s workset_id element_ids user_id now).2
  = Returns [("success", PBool true);
             ("released_elements", PStrs loop.2);
             ("released_at", PIso (isoformat now))] /\
  borrows_on (release_borrowed s workset_id element_ids user_id now).1 workset_id
  = loop.1 /\
  forall other, other <> workset_id ->
    od_get (active_borrows (release_borrowed s workset_id element_ids user_id now).1) other
    = od_get (active_borrows s) other.
Proof.
  intros Hget Huser. unfold release_borrowed, borrows_on. rewrite Hget.
  destruct (filter _ borrows) as [|b0 user_borrows] eqn:Hfilter; [done|].
  simpl. destruct (fold_left _ _ _) as [[|b' borrows'] released]; simpl.
  - rewrite od_del_set, od_get_del_eq. split_and!; try done.
    intros other Hne. by rewrite od_get_del_ne.
  - rewrite od_get_set_eq. split_and!; try done.
    intros other Hne. by rewrite od_get_set_ne.
Qed.

(** X11.  For a user who holds a borrow on the workset, [release_borrowed]
    succeeds and returns, for each of the user's borrows in list order, the
    elements it holds that were asked for: an element is returned only if
    it was requested and the user held it.  The borrows of other users on
    the workset are left exactly as they were, and so is every other
    workset. *)
Theorem release_borrowed_result s workset_id element_ids user_id now borrows :
  od_get (active_borrows s) workset_id = Some borrows ->
  (exists b, b ∈ borrows /\ Borrow.borrower b = user_id) ->
  let call := release_borrowed s workset_id element_ids user_id now in
  let user_borrows := filter (fun b => Borrow.borrower b = user_id) borrows in
  call.2 = Returns [("success", PBool true);
                    ("released_elements",
                     PStrs (released_elements element_ids user_borrows));
                    ("released_at", PIso (isoformat now))] /\
  (forall e, e ∈ released_elements element_ids user_borrows <->
             e ∈ element_ids /\
             exists b, b ∈ borrows /\ Borrow.borrower b = user_id /\
                       e ∈ Borrow.element_ids b) /\
  filter (fun b => Borrow.borrower b <> user_id) (borrows_on call.1 workset_id)
  = filter (fun b => Borrow.borrower b <> user_id) borrows /\
  (forall other, other <> workset_id ->
     od_get (active_borrows call.1) other = od_get (active_borrows s) other).
Proof.
  intros Hget (b0 & Hb0 & Hu0). simpl.
  assert (Huser : filter (fun b => Borrow.borrower b = user_id) borrows <> []).
  { intros Hnil.
    assert (Hin : b0 ∈ filter (fun b => Borrow.borrower b = user_id) borrows)
      by (by apply list_elem_of_filter).
    rewrite Hnil in Hin. by apply elem_of_nil in Hin. }
  destruct (release_borrowed_table s workset_id element_ids user_id now borrows
              Hget Huser) as (Hout & Hleft & Hother).
  rewrite release_loop_released in Hout. simpl in Hout.
  split_and!; [done | | | done].
  - intros e. unfold released_elements. rewrite list_elem_of_bind. split.
    + intros (b & [He Hin]%list_elem_of_filter & [Hu Hb]%list_elem_of_filter).
      split; [done|]. by exists b.
    + intros (He & b & Hb & Hu & Hin). exists b.
      split; by apply list_elem_of_filter.
  - rewrite Hleft. apply release_loop_others.
    apply Forall_forall. by intros b [? _]%list_elem_of_filter.
Qed.

Lemma list_remove_keeps x l b : b ∈ l -> b <> x -> b ∈ list_remove x l.
Proof.
  induction l as [|y l IH]; simpl; [done|].
  intros [->|Hin]%elem_of_cons Hne.
  - rewrite decide_False by done. left.
  - destruct (decide (y = x)); [done|]. right. by apply IH.
Qed.

Lemma list_assign_keeps x x' l b : b ∈ l -> b <> x -> b ∈ list_assign x x' l.
Proof.
  induction l as [|y l IH]; simpl; [done|].
  intros [->|Hin]%elem_of_cons Hne.
  - rewrite decide_False by done. left.
  - destruct (decide (y = x)); right; [done | by apply IH].
Qed.

Lemma release_loop_keeps_empty element_ids user_borrows borrows released b :
  Borrow.element_ids b = [] -> b ∈ borrows ->
  b ∈ (fold_left (release_step element_ids) user_borrows (borrows, released)).1.
Proof.
  intros Hempty. revert borrows released.
  induction user_borrows as [|x user_borrows IH]; intros borrows released Hb; [done|].
  cbn [fold_left]. unfold release_step at 2.
  destruct (Nat.ltb_spec (length (filter (fun e => e ∉ element_ids) (Borrow.element_ids x)))
                         (length (Borrow.element_ids x))) as [Hlt|Hge];
    [|by apply IH].
  assert (Hne : b <> x).
  { intros ->. rewrite Hempty in Hlt. simpl in Hlt. lia. }
  destruct (filter _ (Borrow.element_ids x)); apply IH.
  - by apply list_remove_keeps.
  - by apply list_assign_keeps.
Qed.

(** X12.  A borrow approved for an empty list of elements cannot be
    released: whatever elements [release_borrowed] is asked for, and by
    whom, such a borrow is still in its workset's list afterwards (only the
    expiry sweep removes it). *)
Theorem release_borrowed_keeps_empty_borrow s workset_id element_ids user_id now
    borrows b :
  od_get (active_borrows s) workset_id = Some borrows ->
  b ∈ borrows ->
  Borrow.element_ids b = [] ->
  exists borrows',
    od_get (active_borrows (release_borrowed s workset_id element_ids user_id now).1)
           workset_id = Some borrows' /\
    b ∈ borrows'.
Proof.
  intros Hget Hb Hempty.
  destruct (decide (filter (fun b => Borrow.borrower b = user_id) borrows = []))
    as [Hnone|Huser].
  { exists borrows. unfold release_borrowed. by rewrite Hget, Hnone. }
  pose proof (release_loop_keeps_empty element_ids
                (filter (fun b => Borrow.borrower b = user_id) borrows)
                borrows [] b Hempty Hb) as Hkept.
  unfold release_borrowed. rewrite Hget.
  destruct (filter _ borrows) as [|b0 user_borrows]; [done|].
  destruct (fold_left _ _ _) as [[|b' borrows'] released]; simpl in *.
  - by apply elem_of_nil in Hkept.
  - exists (b' :: borrows'). by rewrite od_get_set_eq.
Qed.

(** The loop when every borrow of the user is released in full. *)
Lemma release_loop_full element_ids user_id kept borrows released :
  Forall (fun b => Borrow.borrower b <> user_id) kept ->
  (forall b, b ∈ borrows -> Borrow.borrower b = user_id ->
             Borrow.element_ids b <> [] /\
             forall e, e ∈ Borrow.element_ids b -> e ∈ element_ids) ->
  (fold_left (release_step element_ids)
     (filter (fun b => Borrow.borrower b = user_id) borrows)
     (kept ++ borrows, released)).1
  = kept ++ filter (fun b => Borrow.borrower b <> user_id) borrows.
Proof.
  revert kept released.
  induction borrows as [|x borrows IH]; intros kept released Hkept Hfull; [done|].
  destruct (decide (Borrow.borrower x = user_id)) as [Hx|Hx].
  - rewrite filter_cons_True by done.
    rewrite (filter_cons_False (fun b => Borrow.borrower b <> user_id)) by auto.
    cbn [fold_left]. unfold release_step at 2.
    destruct (Hfull x) as [Hne Hall]; [left | done |].
    rewrite (filter_none (fun e => e ∉ element_ids) (Borrow.element_ids x)).
    2: { apply Forall_forall. intros e He Hnot. by apply Hnot, Hall. }
    destruct (Borrow.element_ids x) as [|e l] eqn:Hel; [done|]. simpl.
    rewrite list_remove_app.
    + apply IH; [done|]. intros b Hb. apply Hfull. by right.
    + intros y Hy ->. rewrite Forall_forall in Hkept. by apply (Hkept x).
  - rewrite filter_cons_False by done.
    rewrite (filter_cons_True (fun b => Borrow.borrower b <> user_id)) by done.
    rewrite (cons_middle x kept borrows), app_assoc.
    rewrite IH.
    + by rewrite <- app_assoc.
    + apply Forall_app. split; [done | by constructor].
    + intros b Hb. apply Hfull. by right.
Qed.

(** X13.  When [release_borrowed] is asked for every element of every
    borrow the user holds on the workset (each holding at least one
    element), all of those borrows are removed and the list keeps exactly
    the other users' borrows, in order; if there are none, the workset's
    entry is gone from the active-borrow table. *)
Theorem release_borrowed_in_full s workset_id element_ids user_id now borrows :
  od_get (active_borrows s) workset_id = Some borrows ->
  (exists b, b ∈ borrows /\ Borrow.borrower b = user_id) ->
  (forall b, b ∈ borrows -> Borrow.borrower b = user_id ->
             Borrow.element_ids b <> [] /\
             forall e, e ∈ Borrow.element_ids b -> e ∈ element_ids) ->
  let s' := (release_borrowed s workset_id element_ids user_id now).1 in
  borrows_on s' workset_id = filter (fun b => Borrow.borrower b <> user_id) borrows /\
  ((forall b, b ∈ borrows -> Borrow.borrower b = user_id) ->
   od_get (active_borrows s') workset_id = None).
Proof.
  intros Hget (b0 & Hb0 & Hu0) Hfull. simpl.
  pose proof (release_loop_full element_ids user_id [] borrows [] (Forall_nil_2 _) Hfull)
    as Hloop. simpl in Hloop.
  unfold release_borrowed, borrows_on. rewrite Hget.
  destruct (filter (fun b => Borrow.borrower b = user_id) borrows)
    as [|b1 user_borrows] eqn:Hfilter.
  { assert (Hin : b0 ∈ filter (fun b => Borrow.borrower b = user_id) borrows)
      by (by apply list_elem_of_filter).
    rewrite Hfilter in Hin. by apply elem_of_nil in Hin. }
  destruct (fold_left _ _ _) as [borrows' released]. simpl in Hloop. subst borrows'.
  destruct (filter (fun b => Borrow.borrower b <> user_id) borrows)
    as [|b2 others] eqn:Hothers; simpl.
  - rewrite od_del_set, od_get_del_eq. done.
  - rewrite od_get_set_eq. split; [done|]. intros Hall.
    assert (Hin : b2 ∈ filter (fun b => Borrow.borrower b <> user_id) borrows)
      by (rewrite Hothers; left).
    apply list_elem_of_filter in Hin as [Hne Hin]. by destruct (Hne (Hall b2 Hin)).
Qed.

(** ** From request to approval, and what an active borrow blocks *)

Lemma request_borrow_filed s workset_id element_ids user_id reason now1 now2 current :
  workset_owners s !! workset_id = Some current ->
  returns_success (request_borrow s workset_id element_ids user_id reason now1 now2).2
  = true ->
  request_borrow s workset_id element_ids user_id reason now1 now2
  = (set_borrow_requests
       (borrow_requests s
        ++ [pending_request workset_id element_ids user_id current reason now1 now2]) s,
     Returns [("success", PBool true);
              ("request_id", PStr (_generate_request_id workset_id user_id now1));
              ("status", PStr "pending");
              ("owner", PStr current)]).
Proof.
  unfold request_borrow. intros ->.
  destruct (_ =? _)%string; [done|]. by destruct (_ >=? _).
Qed.

(** X14.  A request filed under an id no stored request has yet can be
    approved by the owner [request_borrow] returned: the approval succeeds
    and appends, at the end of the workset's active list, a borrow for the
    requester with the requested elements, stamped with the approval
    reading and expiring [borrow_timeout_hours] after the second reading.
    Anyone else is refused, and the ledger is then left as the request
    left it. *)
Theorem request_then_approve s workset_id element_ids user_id reason now1 now2
    current now3 now4 :
  workset_owners s !! workset_id = Some current ->
  returns_success (request_borrow s workset_id element_ids user_id reason now1 now2).2
  = true ->
  find_request s (_generate_request_id workset_id user_id now1) = None ->
  let request_id := _generate_request_id workset_id user_id now1 in
  let s1 := (request_borrow s workset_id element_ids user_id reason now1 now2).1 in
  let approval := approve_borrow s1 request_id current now3 now4 in
  returns_success approval.2 = true /\
  borrows_on approval.1 workset_id
  = borrows_on s workset_id
    ++ [{| Borrow.borrower := user_id;
           Borrow.element_ids := element_ids;
           Borrow.borrowed_at := isoformat now3;
           Borrow.expires_at := isoformat (now4 + hours (borrow_timeout_hours s));
           Borrow.request_id := request_id |}] /\
  (forall other, other <> current ->
     approve_borrow s1 request_id other now3 now4
     = (s1, Returns (failure only_owner_can_approve))).
Proof.
  intros Hown Hok Hfresh. simpl.
  rewrite (request_borrow_filed _ _ _ _ _ _ _ _ Hown Hok). simpl.
  set (r := pending_request workset_id element_ids user_id current reason now1 now2).
  set (s1 := set_borrow_requests (borrow_requests s ++ [r]) s).
  assert (Hfind : find_request s1 (_generate_request_id workset_id user_id now1)
                  = Some (length (borrow_requests s), r)).
  { unfold find_request, s1. simpl. unfold find_request in Hfresh.
    rewrite list_find_app_r by done. simpl. by rewrite decide_True. }
  split_and!.
  - by apply (approve_borrow_pending s1 _ _ r now3 now4 Hfind).
  - pose proof (approve_borrow_pending s1 _ _ r now3 now4 Hfind eq_refl) as Hok'.
    apply approve_borrow_effect in Hok'
      as (i & r' & Hfind' & _ & _ & _ & _ & Hact & _).
    assert (Hr' : r' = r) by congruence. rewrite Hr' in Hact.
    change (Request.owner r) with current in Hact.
    unfold borrows_on. rewrite Hact. by rewrite od_get_set_eq.
  - intros other Hne. by apply (approve_borrow_refused s1 _ other _ r now3 now4 Hfind).
Qed.

Section Blocking.
Variable utcfromtimestamp_micros : Z -> option datetime.

(** X15.  While a request's borrow is active the workset cannot change
    owner: right after a successful [approve_borrow], every
    [transfer_ownership] call on the request's workset, whoever makes it and
    with whatever timestamp, returns a failure and leaves the ledger
    unchanged; made by the current owner, it is refused with the
    active-borrows error. *)
Theorem approval_blocks_transfer s request_id owner_id now1 now2 i r
    from_user to_user timestamp kwargs now :
  find_request s request_id = Some (i, r) ->
  returns_success (approve_borrow s request_id owner_id now1 now2).2 = true ->
  let s1 := (approve_borrow s request_id owner_id now1 now2).1 in
  let transfer := transfer_ownership utcfromtimestamp_micros s1 (Request.workset_id r)
                    from_user to_user timestamp kwargs now in
  transfer.1 = s1 /\
  returns_success transfer.2 = false /\
  (exists msg, transfer.2 = Returns (failure msg)) /\
  (workset_owners s1 !! Request.workset_id r = Some from_user ->
   transfer.2 = Returns (failure transfer_with_active_borrows)).
Proof.
  intros Hfind Hok. simpl.
  apply approve_borrow_effect in Hok as (i' & r' & Hfind' & _ & _ & _ & _ & Hact & _).
  rewrite Hfind in Hfind'. simplify_eq.
  set (s1 := (approve_borrow s request_id owner_id now1 now2).1) in *.
  assert (Hactive : has_active_borrows s1 (Request.workset_id r') = true).
  { unfold has_active_borrows. rewrite Hact, od_get_set_eq.
    by destruct (default [] _). }
  unfold transfer_ownership.
  destruct (workset_owners s1 !! Request.workset_id r') as [current|]; simpl.
  2: { split_and!; eauto. done. }
  destruct (String.eqb_spec current from_user) as [->|Hne]; simpl.
  - rewrite Hactive. split_and!; eauto.
  - split_and!; eauto. intros [= ?]. done.
Qed.
End Blocking.

(** ** Metadata on reachable ledgers *)

Lemma metadata_logged_same s s' :
  workset_metadata s' = workset_metadata s ->
  metadata_objects s' = metadata_objects s ->
  ownership_history s' = ownership_history s ->
  metadata_logged s -> metadata_logged s'.
Proof. unfold metadata_logged. by intros -> -> ->. Qed.

Lemma register_workset_metadata_logged s workset_id workset_name owner document_guid
    kwargs now1 now2 now3 :
  metadata_logged s ->
  metadata_logged (register_workset s workset_id workset_name owner document_guid
                     kwargs now1 now2 now3).1.
Proof.
  intros Hs. unfold register_workset. destruct (negb _); [done|].
  destruct workset_id as [wid|], workset_name as [wname|], owner as [own|]; try done.
  intros k addr. simpl. destruct (decide (wid = k)) as [->|Hne].
  - rewrite lookup_insert_eq. intros [= <-]. split.
    + rewrite lookup_app_r by done. rewrite Nat.sub_diag. by eexists.
    + eexists. split; [apply elem_of_app; right; left|]. done.
  - rewrite lookup_insert_ne by done. intros Hk.
    destruct (Hs k addr Hk) as [[m Hm] (entry & Hin & ?)]. split.
    + exists m. by apply lookup_app_l_Some.
    + exists entry. split; [|done]. apply elem_of_app. by left.
Qed.

Lemma transfer_ownership_metadata_logged conv s workset_id from_user to_user timestamp
    kwargs now :
  metadata_logged s ->
  metadata_logged (transfer_ownership conv s workset_id from_user to_user timestamp
                     kwargs now).1.
Proof.
  intros Hs. unfold transfer_ownership.
  destruct (workset_owners s !! workset_id) as [current|]; [|done].
  destruct (negb _); [done|]. destruct (has_active_borrows s workset_id); [done|].
  simpl. destruct (workset_metadata s !! workset_id) as [a|]; [|done].
  assert (Halter : forall addr, is_Some (metadata_objects s !! addr) ->
            is_Some (alter (fun m => touched m (isoformat now)) a
                           (metadata_objects s) !! addr)).
  { intros addr [m Hm]. destruct (decide (a = addr)) as [->|Hne].
    - rewrite list_lookup_alter_eq, Hm. by eexists.
    - rewrite list_lookup_alter_ne by done. by eexists. }
  destruct (conv timestamp); simpl; intros k addr Hk;
    destruct (Hs k addr Hk) as [Hm (entry & Hin & ?)]; (split; [by apply Halter|]).
  - exists entry. split; [|done]. apply elem_of_app. by left.
  - by exists entry.
Qed.

Lemma reachable_metadata_logged conv s : reachable conv s -> metadata_logged s.
Proof.
  induction 1 as [|s c Hs IH].
  - intros k addr Hk. simpl in Hk. by rewrite lookup_empty in Hk.
  - destruct c; simpl.
    + by apply register_workset_metadata_logged.
    + by apply transfer_ownership_metadata_logged.
    + pose proof (request_borrow_rest s workset_id element_ids user_id reason now1 now2)
        as H.
      eapply metadata_logged_same; [..|exact IH]; by rewrite <- H at 2.
    + destruct (returns_success (approve_borrow s request_id owner_id now1 now2).2)
        eqn:Hok.
      * apply approve_borrow_effect in Hok
          as (i & r & _ & _ & _ & _ & _ & _ & _ & Hm & Ho & Hh & _).
        by eapply metadata_logged_same.
      * apply approve_borrow_failed in Hok. by rewrite Hok.
    + pose proof (release_borrowed_rest s workset_id element_ids user_id now) as H.
      eapply metadata_logged_same; [..|exact IH]; by rewrite <- H at 2.
    + pose proof (check_expired_borrows_rest s current_time) as H.
      eapply metadata_logged_same; [..|exact IH]; by rewrite <- H at 2.
    + by rewrite get_workset_status_ledger.
Qed.

Lemma sum_list_lengths {A B} (f : A -> list B) (l : list A) :
  sum_list (map (fun x => length (f x)) l) = length (l ≫= f).
Proof.
  induction l as [|x l IH]; [done|].
  rewrite bind_cons, length_app. simpl. by rewrite IH.
Qed.

(** X16.  On a reachable ledger [get_workset_status] never raises: it
    returns the not-found failure for an unregistered workset and otherwise a
    success dict holding the current owner, a reference to the workset's
    existing metadata dict, the number of active borrows on the workset,
    the total number of elements they hold, and the set of their borrowers. *)
Theorem get_workset_status_on_reachable conv s workset_id :
  reachable conv s ->
  let out := (get_workset_status s workset_id).2 in
  (returns_success out = true <-> is_Some (workset_owners s !! workset_id)) /\
  (workset_owners s !! workset_id = None ->
   out = Returns (failure workset_not_found)) /\
  (forall current, workset_owners s !! workset_id = Some current ->
     exists addr m (borrowers : gset string),
       workset_metadata s !! workset_id = Some addr /\
       metadata_objects s !! addr = Some m /\
       (forall u, u ∈ borrowers <->
                  exists b, b ∈ borrows_on s workset_id /\ Borrow.borrower b = u) /\
       out = Returns
               [("success", PBool true);
                ("workset_id", PStr workset_id);
                ("owner", PStr current);
                ("metadata", PRef addr);
                ("active_borrows", PInt (Z.of_nat (length (borrows_on s workset_id))));
                ("borrowed_elements",
                 PInt (Z.of_nat (length (borrows_on s workset_id
                                         ≫= Borrow.element_ids))));
                ("borrowers", PStrSet borrowers)]).
Proof.
  intros Hs. simpl. unfold get_workset_status.
  destruct (workset_owners s !! workset_id) as [current|] eqn:Hown.
  2: { by split_and!. }
  destruct (reachable_metadata_consistent conv s Hs workset_id) as [addr Haddr];
    [by rewrite Hown|].
  destruct (reachable_metadata_logged conv s Hs workset_id addr Haddr) as [[m Hm] _].
  rewrite Haddr. simpl. split_and!; [by split; eauto | done |].
  intros ? [= <-].
  exists addr, m, (list_to_set (Borrow.borrower <$> borrows_on s workset_id)).
  split_and!; try done.
  - intros u. rewrite elem_of_list_to_set, list_elem_of_fmap. split.
    + intros (b & -> & Hb). by exists b.
    + intros (b & Hb & <-). by exists b.
  - unfold borrows_on. by rewrite sum_list_lengths.
Qed.

Section TransferOnReachable.
Variable utcfromtimestamp_micros : Z -> option datetime.

End TransferOnReachable.

Section SharedMetadata.
Variable utcfromtimestamp_micros : Z -> option datetime.

(** X18.  The log's registration entries are not frozen copies.  On a
    reachable ledger the log holds an entry of the workset that refers to
    the workset's live metadata dict, and a successful [transfer_ownership]
    rewrites [last_modified] of that very dict: read through the entry
    logged earlier, the metadata shows the time of the transfer (the other
    metadata fields stay as registered). *)
Theorem transfer_ownership_touches_logged_metadata s workset_id from_user to_user
    timestamp kwargs now :
  reachable utcfromtimestamp_micros s ->
  returns_success (transfer_ownership utcfromtimestamp_micros s workset_id from_user
                     to_user timestamp kwargs now).2 = true ->
  exists entry addr m,
    entry ∈ ownership_history s /\
    dict_get entry "workset_id" = Some (PStr workset_id) /\
    dict_get entry "metadata" = Some (PRef addr) /\
    metadata_objects s !! addr = Some m /\
    let s' := (transfer_ownership utcfromtimestamp_micros s workset_id from_user
                 to_user timestamp kwargs now).1 in
    entry ∈ ownership_history s' /\
    workset_metadata s' !! workset_id = Some addr /\
    metadata_objects s' !! addr = Some (touched m (isoformat now)).
Proof.
  intros Hs. pose proof (reachable_metadata_logged _ s Hs workset_id) as Hlogged.
  unfold transfer_ownership.
  destruct (workset_owners s !! workset_id) as [current|]; [|done].
  destruct (negb _); [done|]. destruct (has_active_borrows s workset_id); [done|].
  simpl. destruct (workset_metadata s !! workset_id) as [addr|] eqn:Haddr; [|done].
  destruct (Hlogged addr eq_refl) as [[m Hm] (entry & Hin & Hws & Href)].
  destruct (utcfromtimestamp_micros timestamp); [|done]. simpl. intros _.
  exists entry, addr, m. split_and!; try done.
  - apply elem_of_app. by left.
  - by rewrite list_lookup_alter_eq, Hm.
Qed.
End SharedMetadata.

(** ** The shape of the generated ids *)

Lemma chars_append s1 s2 :
  list_ascii_of_string (s1 +:+ s2) = list_ascii_of_string s1 ++ list_ascii_of_string s2.
Proof. induction s1 as [|c s1 IH]; simpl; [done | by rewrite IH]. Qed.

Lemma chars_prefix n s :
  list_ascii_of_string (str_prefix n s) = take n (list_ascii_of_string s).
Proof.
  unfold str_prefix. revert s.
  induction n as [|n IH]; intros [|c s]; simpl; try done.
  by rewrite IH.
Qed.

Lemma chars_length s : String.length s = length (list_ascii_of_string s).
Proof. induction s as [|c s IH]; simpl; [done | by rewrite IH]. Qed.

Lemma hex_digit_is_hex n : 0 <= n < 16 -> is_hex (SHA256.hex_digit n) = true.
Proof.
  intros Hn. assert (Hk : n = Z.of_nat (Z.to_nat n)) by lia.
  assert (Hlt : (Z.to_nat n < 16)%nat) by lia.
  rewrite Hk. generalize dependent (Z.to_nat n). intros k _ Hlt.
  do 16 (destruct k as [|k]; [reflexivity|]). lia.
Qed.

Lemma hex_word_chars x :
  length (list_ascii_of_string (SHA256.hex_word x)) = 8%nat /\
  forallb is_hex (list_ascii_of_string (SHA256.hex_word x)) = true.
Proof.
  unfold SHA256.hex_word. rewrite list_ascii_of_string_of_list_ascii.
  split; [done|]. apply forallb_forall. intros c Hc.
  apply in_map_iff in Hc as (i & <- & _).
  apply hex_digit_is_hex. apply Z.mod_pos_bound. lia.
Qed.

Lemma round_length st kw : length (SHA256.round st kw) = length st.
Proof.
  unfold SHA256.round.
  destruct st as [|a [|b [|c [|d [|e [|f [|g [|h [|i st]]]]]]]]]; done.
Qed.

Lemma compress_length h block : length (SHA256.compress h block) = length h.
Proof.
  unfold SHA256.compress. rewrite length_zip_with.
  assert (H : forall kws st, length (fold_left SHA256.round kws st) = length st).
  { induction kws as [|kw kws IH]; intros st; simpl; [done|].
    by rewrite IH, round_length. }
  rewrite H. lia.
Qed.

Lemma digest_words_length msg : length (SHA256.digest_words msg) = 8%nat.
Proof.
  unfold SHA256.digest_words.
  assert (H : forall bs h, length (fold_left SHA256.compress bs h) = length h).
  { induction bs as [|b bs IH]; intros h; simpl; [done|].
    by rewrite IH, compress_length. }
  by rewrite H.
Qed.

Lemma hexdigest_chars data :
  length (list_ascii_of_string (SHA256.hexdigest data)) = 64%nat /\
  forallb is_hex (list_ascii_of_string (SHA256.hexdigest data)) = true.
Proof.
  unfold SHA256.hexdigest.
  pose proof (digest_words_length (SHA256.bytes_of_string data)) as Hlen.
  assert (H : forall ws,
            length (list_ascii_of_string
                      (fold_right (fun x acc => SHA256.hex_word x +:+ acc) "" ws))
            = (8 * length ws)%nat /\
            forallb is_hex
              (list_ascii_of_string
                 (fold_right (fun x acc => SHA256.hex_word x +:+ acc) "" ws)) = true).
  { induction ws as [|x ws [IH1 IH2]]; [done|]. cbn [fold_right].
    destruct (hex_word_chars x) as [Hx1 Hx2].
    rewrite chars_append, length_app, forallb_app, Hx1, Hx2, IH1, IH2.
    split; [cbn [length]; lia | done]. }
  destruct (H (SHA256.digest_words (SHA256.bytes_of_string data))) as [H1 H2].
  rewrite Hlen in H1. done.
Qed.

Lemma forallb_take {A} (p : A -> bool) n (l : list A) :
  forallb p l = true -> forallb p (take n l) = true.
Proof.
  revert n. induction l as [|x l IH]; intros [|n]; simpl; try done.
  intros [-> Hl]%andb_prop. simpl. by apply IH.
Qed.

Lemma digest_prefix_token data : hex_token 16 (str_prefix 16 (SHA256.hexdigest data)).
Proof.
  destruct (hexdigest_chars data) as [Hlen Hhex]. unfold hex_token.
  rewrite chars_length, chars_prefix, length_take, Hlen.
  split; [done | by apply forallb_take].
Qed.

(** X19.  Every transfer id and every request id the ledger generates is a
    token of exactly 16 lower-case hexadecimal digits, whatever the workset
    id, the user id, the timestamp and the clock reading. *)
Theorem generated_ids_are_hex_tokens workset_id user_id timestamp now :
  hex_token 16 (_generate_transfer_id workset_id timestamp) /\
  hex_token 16 (_generate_request_id workset_id user_id now).
Proof. split; apply digest_prefix_token. Qed.

(** ** Approval and release: when they succeed *)

(** X20.  [approve_borrow] succeeds exactly when the id resolves to a
    request whose snapshotted owner is [owner_id] and whose status is
    pending.  Otherwise it fails with the first applicable error (request
    not found, not the owner, already processed) and leaves the ledger
    unchanged.  A success marks that request approved in place, appends it
    to [borrow_history], appends one borrow to the workset's active list,
    and touches neither owners, metadata nor the ownership log. *)
Theorem approve_borrow_spec s request_id owner_id now1 now2 :
  let call := approve_borrow s request_id owner_id now1 now2 in
  (returns_success call.2 = true <->
     exists i r, find_request s request_id = Some (i, r) /\
                 Request.owner r = owner_id /\ Request.status r = "pending") /\
  (find_request s request_id = None ->
     call = (s, Returns (failure request_not_found))) /\
  (forall i r, find_request s request_id = Some (i, r) ->
     Request.owner r <> owner_id ->
     call = (s, Returns (failure only_owner_can_approve))) /\
  (forall i r, find_request s request_id = Some (i, r) ->
     Request.owner r = owner_id -> Request.status r <> "pending" ->
     call = (s, Returns (failure (request_already (Request.status r))))) /\
  (forall i r, find_request s request_id = Some (i, r) ->
     returns_success call.2 = true ->
     let approved_at := isoformat now1 in
     let expires_at := isoformat (now2 + hours (borrow_timeout_hours s)) in
     call.2 = Returns [("success", PBool true);
                       ("request_id", PStr request_id);
                       ("borrower", PStr (Request.borrower r));
                       ("expires_at", PIso expires_at)] /\
     borrow_requests call.1
     = <[i := approve_request r approved_at expires_at]> (borrow_requests s) /\
     borrow_history call.1
     = borrow_history s ++ [approve_request r approved_at expires_at] /\
     borrows_on call.1 (Request.workset_id r)
     = borrows_on s (Request.workset_id r)
       ++ [approved_borrow r request_id approved_at expires_at] /\
     (forall other, other <> Request.workset_id r ->
        od_get (active_borrows call.1) other = od_get (active_borrows s) other) /\
     workset_owners call.1 = workset_owners s /\
     workset_metadata call.1 = workset_metadata s /\
     metadata_objects call.1 = metadata_objects s /\
     ownership_history call.1 = ownership_history s).
Proof.
  simpl. split_and!.
  - split.
    + intros Hok. apply approve_borrow_effect in Hok
        as (i & r & Hfind & Hown & Hst & _). by exists i, r.
    + intros (i & r & Hfind & <- & Hst). by eapply approve_borrow_pending.
  - intros Hnone. unfold approve_borrow. by rewrite Hnone.
  - intros i r Hfind Hne. by eapply approve_borrow_refused.
  - intros i r Hfind <- Hst. by eapply approve_borrow_processed.
  - intros i r Hfind Hok. pose proof Hok as Hout.
    apply approve_borrow_effect in Hok
      as (i' & r' & Hfind' & Hown & Hst & Hreq & Hhist & Hact & Ho & Hm & Hobj & Hlog & _).
    rewrite Hfind in Hfind'. simplify_eq. split_and!; try done.
    + clear -Hfind Hst. unfold approve_borrow.
      rewrite Hfind, String.eqb_refl, Hst. done.
    + unfold borrows_on. by rewrite Hact, od_get_set_eq.
    + intros other Hne. rewrite Hact. by rewrite od_get_set_ne.
Qed.

(** X21.  [release_borrowed] succeeds exactly when the workset has an entry
    in the active-borrow table and the user holds a borrow in it; otherwise
    it fails (no active borrows for the workset, or none for the user) and
    leaves the ledger unchanged.  Whatever it returns, it changes nothing
    but the active-borrow table. *)
Theorem release_borrowed_spec s workset_id element_ids user_id now :
  let call := release_borrowed s workset_id element_ids user_id now in
  (returns_success call.2 = true <->
     exists borrows b, od_get (active_borrows s) workset_id = Some borrows /\
                       b ∈ borrows /\ Borrow.borrower b = user_id) /\
  (od_get (active_borrows s) workset_id = None ->
     call = (s, Returns (failure no_active_borrows_for_workset))) /\
  (forall borrows, od_get (active_borrows s) workset_id = Some borrows ->
     (forall b, b ∈ borrows -> Borrow.borrower b <> user_id) ->
     call = (s, Returns (failure user_has_no_active_borrows))) /\
  set_active_borrows (active_borrows s) call.1 = s.
Proof.
  simpl. split_and!; [| | |apply release_borrowed_rest].
  - unfold release_borrowed.
    destruct (od_get (active_borrows s) workset_id) as [borrows|] eqn:Hget.
    2: { split; [done | by intros (? & ? & ? & _)]. }
    destruct (filter _ borrows) as [|b0 user_borrows] eqn:Hfilter.
    + split; [done|]. intros (? & b & [= <-] & Hb & Hu).
      assert (Hin : b ∈ filter (fun b => Borrow.borrower b = user_id) borrows)
        by (by apply list_elem_of_filter).
      rewrite Hfilter in Hin. by apply elem_of_nil in Hin.
    + split; [|by destruct (fold_left _ _ _)]. intros _.
      assert (Hin : b0 ∈ filter (fun b => Borrow.borrower b = user_id) borrows)
        by (rewrite Hfilter; left).
      apply list_elem_of_filter in Hin as [? ?]. by exists borrows, b0.
  - intros Hnone. unfold release_borrowed. by rewrite Hnone.
  - intros borrows Hget Hnone. unfold release_borrowed. rewrite Hget.
    rewrite (filter_none (fun b => Borrow.borrower b = user_id) borrows); [done|].
    by apply Forall_forall.
Qed.

(** X22.  A successful approval raises the borrower's count of active
    borrows by exactly one and leaves every other user's count as it was;
    the count is not compared with the ceiling at this point. *)
Theorem approve_borrow_counts s request_id owner_id now1 now2 i r :
  find_request s request_id = Some (i, r) ->
  returns_success (approve_borrow s request_id owner_id now1 now2).2 = true ->
  let s' := (approve_borrow s request_id owner_id now1 now2).1 in
  user_active_borrows s' (Request.borrower r)
  = user_active_borrows s (Request.borrower r) + 1 /\
  forall other, other <> Request.borrower r ->
                user_active_borrows s' other = user_active_borrows s other.
Proof.
  intros Hfind Hok. simpl.
  apply approve_borrow_effect in Hok as (i' & r' & Hfind' & _ & _ & _ & _ & Hact & _).
  rewrite Hfind in Hfind'. simplify_eq.
  unfold user_active_borrows. rewrite Hact. split.
  - rewrite od_set_values_snoc, filter_app, length_app, filter_cons_True by done.
    simpl. lia.
  - intros other Hne. rewrite od_set_values_snoc, filter_app, length_app.
    rewrite filter_cons_False by (simpl; congruence). simpl. lia.
Qed.

(** X23.  Re-registration is not held back by active borrows.  Right after
    a successful [approve_borrow], when [transfer_ownership] is refused,
    [register_workset] on the same workset with any non-empty name and
    owner still succeeds as an update: it makes that owner the current
    owner, keeps the active borrows as they are, and leaves the request
    with the owner it recorded. *)
Theorem registration_ignores_active_borrows s request_id owner_id now1 now2 i r
    workset_name owner document_guid kwargs now3 now4 now5 :
  find_request s request_id = Some (i, r) ->
  returns_success (approve_borrow s request_id owner_id now1 now2).2 = true ->
  is_Some (workset_owners s !! Request.workset_id r) ->
  workset_name <> "" -> owner <> "" -> Request.workset_id r <> "" ->
  let s1 := (approve_borrow s request_id owner_id now1 now2).1 in
  let call := register_workset s1 (Some (Request.workset_id r)) (Some workset_name)
                (Some owner) document_guid kwargs now3 now4 now5 in
  call.2 = Returns [("success", PBool true);
                    ("workset_id", PStr (Request.workset_id r));
                    ("action", PStr "updated")] /\
  workset_owners call.1 !! Request.workset_id r = Some owner /\
  has_active_borrows call.1 (Request.workset_id r) = true /\
  active_borrows call.1 = active_borrows s1 /\
  borrow_requests call.1 = borrow_requests s1 /\
  exists r1, find_request call.1 request_id = Some (i, r1) /\
             Request.owner r1 = owner_id.
Proof.
  intros Hfind Hok Hreg Hname Howner Hws. simpl.
  apply approve_borrow_effect in Hok
    as (i' & r' & Hfind' & Hown & _ & Hreq & _ & Hact & Ho & _).
  rewrite Hfind in Hfind'. simplify_eq.
  set (s1 := (approve_borrow s request_id (Request.owner r') now1 now2).1) in *.
  unfold register_workset. simpl.
  apply String.eqb_neq in Hname, Howner, Hws. rewrite Hname, Howner, Hws. simpl.
  rewrite Ho. destruct Hreg as [current Hcur]. rewrite Hcur.
  rewrite bool_decide_false by done.
  split_and!; try done.
  - apply lookup_insert_eq.
  - unfold has_active_borrows. simpl. rewrite Hact, od_get_set_eq.
    by destruct (default [] _).
  - exists (approve_request r' (isoformat now1)
              (isoformat (now2 + hours (borrow_timeout_hours s)))).
    split; [|done]. unfold find_request. simpl. rewrite Hreq.
    eapply find_request_update; [done|].
    by apply list_find_Some in Hfind as (_ & ? & _).
Qed.

(** ** The logged time of a transfer *)

(** X24.  The time logged for a transfer goes through a float number of
    seconds.  From [2 ^ 33] seconds after the epoch on, that float is
    coarser than a microsecond: [transfer_ownership] called with the
    timestamp [2 ^ 33 * 10 ^ 6 + 1] succeeds and logs the instant one
    microsecond later, [2242-03-16T12:56:32.000002].  At the ends of the
    range of [datetime] the rounding decides whether the call raises: the
    last microsecond of the year 9999 is refused, and the microsecond
    before the year 1 is accepted and converted to the first instant of
    the year 1. *)
Theorem transfer_ownership_logs_rounded_timestamp :
  let timestamp := 2 ^ 33 * 1000000 + 1 in
  let call := transfer_ownership utcfromtimestamp_float ledger_ws1
                "ws1" "alice" "carol" timestamp [] (t0 + 60) in
  returns_success call.2 = true /\
  ownership_history call.1
  = ownership_history ledger_ws1
    ++ [transfer_entry "ws1" "alice" "carol" (timestamp + 1) []] /\
  iso_chars (isoformat (timestamp + 1)) = "2242-03-16T12:56:32.000002" /\
  utcfromtimestamp_float 253402300799999999 = None /\
  utcfromtimestamp_float (-62135596800000001) = Some (-62135596800000000) /\
  iso_chars (isoformat (-62135596800000000)) = "0001-01-01T00:00:00".
Proof. intros timestamp call. subst timestamp call. split_and!; by vm_compute. Qed.

(** ** The further properties at concrete ledgers *)

Lemma ledger_borrowed_reachable : reachable utcfromtimestamp_float ledger_borrowed.
Proof.
  unfold ledger_borrowed, ledger_requested, ledger_ws1.
  do 3 apply reachable_run. apply reachable_init.
Defined.

Lemma ledger_ws1_reachable : reachable utcfromtimestamp_float ledger_ws1.
Proof. unfold ledger_ws1. apply reachable_run, reachable_init. Defined.

Lemma registration_is_permanent_witness :
  is_Some (workset_owners ledger_ws1 !! "ws1") /\
  is_Some (workset_owners
             (runs utcfromtimestamp_float ledger_ws1
                [Transfer "ws1" "alice" "carol" t0 [] (t0 + 60);
                 RequestBorrow "ws1" ["e1"] "bob" "" (t0 + 70) (t0 + 71)]) !! "ws1").
Proof.
  assert (H : is_Some (workset_owners ledger_ws1 !! "ws1")).
  { exists "alice". vm_compute. reflexivity. }
  split; [exact H|].
  exact (registration_is_permanent utcfromtimestamp_float ledger_ws1 _ "ws1" H).
Defined.

Lemma owner_changes_only_by_register_or_transfer_witness :
  workset_owners (run utcfromtimestamp_float ledger_ws1
                    (Transfer "ws1" "alice" "carol" t0 [] (t0 + 60))) !! "ws1"
  <> workset_owners ledger_ws1 !! "ws1" /\
  ((exists workset_name owner document_guid kwargs now1 now2 now3,
      Transfer "ws1" "alice" "carol" t0 [] (t0 + 60)
      = Register (Some "ws1") workset_name owner document_guid kwargs now1 now2 now3) \/
   (exists from_user to_user timestamp kwargs now,
      Transfer "ws1" "alice" "carol" t0 [] (t0 + 60)
      = Transfer "ws1" from_user to_user timestamp kwargs now)).
Proof.
  assert (H : workset_owners (run utcfromtimestamp_float ledger_ws1
                                (Transfer "ws1" "alice" "carol" t0 [] (t0 + 60))) !! "ws1"
              <> workset_owners ledger_ws1 !! "ws1").
  { vm_compute. discriminate. }
  split; [exact H|].
  exact (owner_changes_only_by_register_or_transfer utcfromtimestamp_float ledger_ws1
           _ "ws1" H).
Defined.

Lemma reachable_borrow_backed_by_request_witness :
  reachable utcfromtimestamp_float ledger_borrowed /\
  od_get (active_borrows ledger_borrowed) "ws1" = Some [bob_borrow] /\
  bob_borrow ∈ [bob_borrow] /\
  exists i r,
    find_request ledger_borrowed (Borrow.request_id bob_borrow) = Some (i, r) /\
    Request.workset_id r = "ws1" /\
    Request.status r = "approved" /\
    Request.borrower r = Borrow.borrower bob_borrow /\
    Request.approved_at r = Some (Borrow.borrowed_at bob_borrow) /\
    Request.expires_at r = Some (Borrow.expires_at bob_borrow) /\
    Borrow.element_ids bob_borrow ⊆ Request.element_ids r.
Proof.
  assert (Hget : od_get (active_borrows ledger_borrowed) "ws1" = Some [bob_borrow]).
  { vm_compute. reflexivity. }
  assert (Hin : bob_borrow ∈ [bob_borrow]) by left.
  split; [exact ledger_borrowed_reachable|]. split; [exact Hget|]. split; [exact Hin|].
  exact (reachable_borrow_backed_by_request utcfromtimestamp_float ledger_borrowed
           "ws1" [bob_borrow] bob_borrow ledger_borrowed_reachable Hget Hin).
Defined.

Lemma reachable_active_request_ids_distinct_witness :
  reachable utcfromtimestamp_float ledger_borrowed /\
  NoDup (Borrow.request_id <$> all_borrows ledger_borrowed).
Proof.
  split; [exact ledger_borrowed_reachable|].
  exact (reachable_active_request_ids_distinct utcfromtimestamp_float ledger_borrowed
           ledger_borrowed_reachable).
Defined.

Lemma reachable_requests_well_formed_witness :
  reachable utcfromtimestamp_float ledger_borrowed /\
  Forall request_ok (borrow_requests ledger_borrowed) /\
  Forall (fun r => Request.status r = "approved" /\ request_ok r)
         (borrow_history ledger_borrowed).
Proof.
  split; [exact ledger_borrowed_reachable|].
  exact (reachable_requests_well_formed utcfromtimestamp_float ledger_borrowed
           ledger_borrowed_reachable).
Defined.

Lemma shadowed_request_never_changes_witness :
  (0 < 1)%nat /\
  borrow_requests ledger_collision !! 0%nat = Some bob_request /\
  borrow_requests ledger_collision !! 1%nat = Some bob_second_request /\
  Request.request_id bob_request = Request.request_id bob_second_request /\
  borrow_requests
    (runs utcfromtimestamp_float ledger_collision
       [ApproveBorrow bob_request_id "alice" (t0 + 20) (t0 + 21);
        ApproveBorrow bob_request_id "alice" (t0 + 30) (t0 + 31)]) !! 1%nat
  = Some bob_second_request.
Proof.
  assert (H0 : borrow_requests ledger_collision !! 0%nat = Some bob_request).
  { vm_compute. reflexivity. }
  assert (H1 : borrow_requests ledger_collision !! 1%nat = Some bob_second_request).
  { vm_compute. reflexivity. }
  assert (Hid : Request.request_id bob_request = Request.request_id bob_second_request).
  { vm_compute. reflexivity. }
  split; [lia|]. split; [exact H0|]. split; [exact H1|]. split; [exact Hid|].
  exact (shadowed_request_never_changes utcfromtimestamp_float ledger_collision _
           0%nat 1%nat bob_request bob_second_request (Nat.lt_0_succ 0) H0 H1 Hid).
Defined.

Lemma check_expired_borrows_idempotent_witness :
  NoDup (active_borrows ledger_borrowed).*1 /\
  t0 + 22 + hours 24 <= t0 + 22 + hours 24 /\
  check_expired_borrows
    (check_expired_borrows ledger_borrowed (t0 + 22 + hours 24)).1 (t0 + 22 + hours 24)
  = ((check_expired_borrows ledger_borrowed (t0 + 22 + hours 24)).1, Returns []).
Proof.
  assert (Hnd : NoDup (active_borrows ledger_borrowed).*1).
  { vm_compute. apply NoDup_singleton. }
  assert (Hle : t0 + 22 + hours 24 <= t0 + 22 + hours 24) by lia.
  split; [exact Hnd|]. split; [exact Hle|].
  exact (check_expired_borrows_idempotent ledger_borrowed _ _ Hnd Hle).
Defined.

Lemma approved_borrow_expires_at_deadline_witness :
  NoDup (active_borrows ledger_requested).*1 /\
  returns_success
    (approve_borrow ledger_requested bob_request_id "alice" (t0 + 20) (t0 + 21)).2 = true /\
  exists i r, find_request ledger_requested bob_request_id = Some (i, r).
Proof.
  assert (Hnd : NoDup (active_borrows ledger_requested).*1).
  { vm_compute. apply NoDup_nil_2. }
  assert (Hok : returns_success
                  (approve_borrow ledger_requested bob_request_id "alice"
                     (t0 + 20) (t0 + 21)).2 = true).
  { vm_compute. reflexivity. }
  split; [exact Hnd|]. split; [exact Hok|].
  destruct (approved_borrow_expires_at_deadline ledger_requested bob_request_id "alice"
              (t0 + 20) (t0 + 21) (t0 + 30) Hnd Hok) as (i & r & Hfind & _).
  exists i, r. exact Hfind.
Defined.

Lemma release_borrowed_result_witness :
  od_get (active_borrows ledger_borrowed) "ws1" = Some [bob_borrow] /\
  (exists b, b ∈ [bob_borrow] /\ Borrow.borrower b = "bob") /\
  (release_borrowed ledger_borrowed "ws1" ["e1"; "e7"] "bob" (t0 + 30)).2
  = Returns [("success", PBool true);
             ("released_elements",
              PStrs (released_elements ["e1"; "e7"]
                       (filter (fun b => Borrow.borrower b = "bob") [bob_borrow])));
             ("released_at", PIso (isoformat (t0 + 30)))].
Proof.
  assert (Hget : od_get (active_borrows ledger_borrowed) "ws1" = Some [bob_borrow]).
  { vm_compute. reflexivity. }
  assert (Hbob : exists b, b ∈ [bob_borrow] /\ Borrow.borrower b = "bob").
  { exists bob_borrow. split; [left | reflexivity]. }
  split; [exact Hget|]. split; [exact Hbob|].
  exact (proj1 (release_borrowed_result ledger_borrowed "ws1" ["e1"; "e7"] "bob"
                  (t0 + 30) [bob_borrow] Hget Hbob)).
Defined.

Lemma release_borrowed_keeps_empty_borrow_witness :
  od_get (active_borrows ledger_empty_borrow) "ws1" = Some [carol_borrow] /\
  carol_borrow ∈ [carol_borrow] /\
  Borrow.element_ids carol_borrow = [] /\
  exists borrows',
    od_get (active_borrows
              (release_borrowed ledger_empty_borrow "ws1" ["e1"] "carol" (t0 + 30)).1)
           "ws1" = Some borrows' /\
    carol_borrow ∈ borrows'.
Proof.
  assert (Hget : od_get (active_borrows ledger_empty_borrow) "ws1" = Some [carol_borrow]).
  { vm_compute. reflexivity. }
  assert (Hin : carol_borrow ∈ [carol_borrow]) by left.
  assert (Hempty : Borrow.element_ids carol_borrow = []) by reflexivity.
  split; [exact Hget|]. split; [exact Hin|]. split; [exact Hempty|].
  exact (release_borrowed_keeps_empty_borrow ledger_empty_borrow "ws1" ["e1"] "carol"
           (t0 + 30) [carol_borrow] carol_borrow Hget Hin Hempty).
Defined.

Lemma release_borrowed_in_full_witness :
  od_get (active_borrows ledger_borrowed) "ws1" = Some [bob_borrow] /\
  (exists b, b ∈ [bob_borrow] /\ Borrow.borrower b = "bob") /\
  od_get (active_borrows
            (release_borrowed ledger_borrowed "ws1" ["e2"; "e1"] "bob" (t0 + 30)).1)
         "ws1" = None.
Proof.
  assert (Hget : od_get (active_borrows ledger_borrowed) "ws1" = Some [bob_borrow]).
  { vm_compute. reflexivity. }
  assert (Hbob : exists b, b ∈ [bob_borrow] /\ Borrow.borrower b = "bob").
  { exists bob_borrow. split; [left | reflexivity]. }
  assert (Hfull : forall b, b ∈ [bob_borrow] -> Borrow.borrower b = "bob" ->
            Borrow.element_ids b <> [] /\
            forall e, e ∈ Borrow.element_ids b -> e ∈ ["e2"; "e1"]).
  { intros b Hb _. apply list_elem_of_singleton in Hb. subst b. split; [discriminate|].
    intros e He. simpl in He.
    apply elem_of_cons in He as [->|He]; [right; left|].
    apply list_elem_of_singleton in He. subst e. left. }
  assert (Hall : forall b, b ∈ [bob_borrow] -> Borrow.borrower b = "bob").
  { intros b Hb. apply list_elem_of_singleton in Hb. subst b. reflexivity. }
  split; [exact Hget|]. split; [exact Hbob|].
  exact (proj2 (release_borrowed_in_full ledger_borrowed "ws1" ["e2"; "e1"] "bob"
                  (t0 + 30) [bob_borrow] Hget Hbob Hfull) Hall).
Defined.

Lemma request_then_approve_witness :
  workset_owners ledger_ws1 !! "ws1" = Some "alice" /\
  returns_success
    (request_borrow ledger_ws1 "ws1" ["e1"; "e2"] "bob" "" (t0 + 10) (t0 + 11)).2 = true /\
  find_request ledger_ws1 (_generate_request_id "ws1" "bob" (t0 + 10)) = None /\
  returns_success
    (approve_borrow
       (request_borrow ledger_ws1 "ws1" ["e1"; "e2"] "bob" "" (t0 + 10) (t0 + 11)).1
       (_generate_request_id "ws1" "bob" (t0 + 10)) "alice" (t0 + 20) (t0 + 21)).2 = true.
Proof.
  assert (Hown : workset_owners ledger_ws1 !! "ws1" = Some "alice").
  { vm_compute. reflexivity. }
  assert (Hok : returns_success
                  (request_borrow ledger_ws1 "ws1" ["e1"; "e2"] "bob" ""
                     (t0 + 10) (t0 + 11)).2 = true).
  { vm_compute. reflexivity. }
  assert (Hfresh : find_request ledger_ws1 (_generate_request_id "ws1" "bob" (t0 + 10))
                   = None).
  { vm_compute. reflexivity. }
  split; [exact Hown|]. split; [exact Hok|]. split; [exact Hfresh|].
  exact (proj1 (request_then_approve ledger_ws1 "ws1" ["e1"; "e2"] "bob" ""
                  (t0 + 10) (t0 + 11) "alice" (t0 + 20) (t0 + 21) Hown Hok Hfresh)).
Defined.

Lemma approval_blocks_transfer_witness :
  find_request ledger_requested bob_request_id = Some (0%nat, bob_request) /\
  returns_success
    (approve_borrow ledger_requested bob_request_id "alice" (t0 + 20) (t0 + 21)).2 = true /\
  returns_success
    (transfer_ownership utcfromtimestamp_float
       (approve_borrow ledger_requested bob_request_id "alice" (t0 + 20) (t0 + 21)).1
       (Request.workset_id bob_request) "alice" "carol" t0 [] (t0 + 40)).2 = false.
Proof.
  assert (Hfind : find_request ledger_requested bob_request_id = Some (0%nat, bob_request)).
  { vm_compute. reflexivity. }
  assert (Hok : returns_success
                  (approve_borrow ledger_requested bob_request_id "alice"
                     (t0 + 20) (t0 + 21)).2 = true).
  { vm_compute. reflexivity. }
  split; [exact Hfind|]. split; [exact Hok|].
  exact (proj1 (proj2 (approval_blocks_transfer utcfromtimestamp_float ledger_requested
                         bob_request_id "alice" (t0 + 20) (t0 + 21) 0%nat bob_request
                         "alice" "carol" t0 [] (t0 + 40) Hfind Hok))).
Defined.

Lemma get_workset_status_on_reachable_witness :
  reachable utcfromtimestamp_float ledger_borrowed /\
  (returns_success (get_workset_status ledger_borrowed "ws1").2 = true
   <-> is_Some (workset_owners ledger_borrowed !! "ws1")).
Proof.
  split; [exact ledger_borrowed_reachable|].
  exact (proj1 (get_workset_status_on_reachable utcfromtimestamp_float ledger_borrowed
                  "ws1" ledger_borrowed_reachable)).
Defined.


Lemma transfer_ownership_touches_logged_metadata_witness :
  reachable utcfromtimestamp_float ledger_ws1 /\
  returns_success
    (transfer_ownership utcfromtimestamp_float ledger_ws1 "ws1" "alice" "carol" t0 []
       (t0 + 60)).2 = true /\
  exists entry addr m,
    entry ∈ ownership_history ledger_ws1 /\
    dict_get entry "workset_id" = Some (PStr "ws1") /\
    dict_get entry "metadata" = Some (PRef addr) /\
    metadata_objects ledger_ws1 !! addr = Some m /\
    let s' := (transfer_ownership utcfromtimestamp_float ledger_ws1 "ws1" "alice"
                 "carol" t0 [] (t0 + 60)).1 in
    entry ∈ ownership_history s' /\
    workset_metadata s' !! "ws1" = Some addr /\
    metadata_objects s' !! addr = Some (touched m (isoformat (t0 + 60))).
Proof.
  assert (Hok : returns_success
                  (transfer_ownership utcfromtimestamp_float ledger_ws1 "ws1" "alice"
                     "carol" t0 [] (t0 + 60)).2 = true).
  { vm_compute. reflexivity. }
  split; [exact ledger_ws1_reachable|]. split; [exact Hok|].
  exact (transfer_ownership_touches_logged_metadata utcfromtimestamp_float ledger_ws1
           "ws1" "alice" "carol" t0 [] (t0 + 60) ledger_ws1_reachable Hok).
Defined.

Lemma approve_borrow_counts_witness :
  find_request ledger_requested bob_request_id = Some (0%nat, bob_request) /\
  returns_success
    (approve_borrow ledger_requested bob_request_id "alice" (t0 + 20) (t0 + 21)).2 = true /\
  user_active_borrows
    (approve_borrow ledger_requested bob_request_id "alice" (t0 + 20) (t0 + 21)).1
    (Request.borrower bob_request)
  = user_active_borrows ledger_requested (Request.borrower bob_request) + 1.
Proof.
  assert (Hfind : find_request ledger_requested bob_request_id = Some (0%nat, bob_request)).
  { vm_compute. reflexivity. }
  assert (Hok : returns_success
                  (approve_borrow ledger_requested bob_request_id "alice"
                     (t0 + 20) (t0 + 21)).2 = true).
  { vm_compute. reflexivity. }
  split; [exact Hfind|]. split; [exact Hok|].
  exact (proj1 (approve_borrow_counts ledger_requested bob_request_id "alice"
                  (t0 + 20) (t0 + 21) 0%nat bob_request Hfind Hok)).
Defined.

Lemma registration_ignores_active_borrows_witness :
  find_request ledger_requested bob_request_id = Some (0%nat, bob_request) /\
  returns_success
    (approve_borrow ledger_requested bob_request_id "alice" (t0 + 20) (t0 + 21)).2 = true /\
  is_Some (workset_owners ledger_requested !! Request.workset_id bob_request) /\
  workset_owners
    (register_workset
       (approve_borrow ledger_requested bob_request_id "alice" (t0 + 20) (t0 + 21)).1
       (Some (Request.workset_id bob_request)) (Some "Structural") (Some "carol")
       (PStr "d1") [] (t0 + 40) (t0 + 41) (t0 + 42)).1
    !! Request.workset_id bob_request = Some "carol".
Proof.
  assert (Hfind : find_request ledger_requested bob_request_id = Some (0%nat, bob_request)).
  { vm_compute. reflexivity. }
  assert (Hok : returns_success
                  (approve_borrow ledger_requested bob_request_id "alice"
                     (t0 + 20) (t0 + 21)).2 = true).
  { vm_compute. reflexivity. }
  assert (Hreg : is_Some (workset_owners ledger_requested
                            !! Request.workset_id bob_request)).
  { exists "alice". vm_compute. reflexivity. }
  split; [exact Hfind|]. split; [exact Hok|]. split; [exact Hreg|].
  assert (Hname : "Structural" <> "") by discriminate.
  assert (Howner : "carol" <> "") by discriminate.
  assert (Hws : Request.workset_id bob_request <> "") by discriminate.
  exact (proj1 (proj2 (registration_ignores_active_borrows ledger_requested
                         bob_request_id "alice" (t0 + 20) (t0 + 21) 0%nat bob_request
                         "Structural" "carol" (PStr "d1") [] (t0 + 40) (t0 + 41) (t0 + 42)
                         Hfind Hok Hreg Hname Howner Hws))).
Defined.
